(** * whatsapp-service: message splitting and outbound sending

    A shallow embedding of
      - [src/services/utils/messageSplitter.js]  (splitMessage,
        splitMessageWithIndicators),
      - the WhatsApp sender (validateMessageLength, sendTextMessage,
        sendTextMessageWithSplitting, the shouldRetry predicate),
      - the HaiIndexer client (queryHaiIndexer),
    together with the properties the specification states about them.

    JavaScript strings are sequences of UTF-16 code units; a code unit is a
    number [N], a string is a list of them, [length] is [String.length]. *)

From Stdlib Require Import List NArith ZArith Lia Bool Arith PeanoNat.
From Stdlib Require Import Strings.String Strings.Ascii.
From Stdlib Require DecimalNat.
Import ListNotations.

Set Implicit Arguments.
Set Warnings "-abstract-large-number".

(** [length] is the length of a list throughout (not of a [string]). *)
Abbreviation length := Datatypes.length (only parsing).
Abbreviation rev := List.rev (only parsing).

(* ================================================================== *)
(** ** JavaScript strings *)
(* ================================================================== *)

Module Js.

Definition char := N.
Definition str := list char.

(** A string literal of the source, as code units. *)
Definition lit (s : string) : str :=
  map N_of_ascii (list_ascii_of_string s).

Definition LF : char := 10%N.

(** [WhiteSpace] and [LineTerminator] of ECMAScript: what [String.trim]
    removes and what [\s] matches. *)
Definition isWhiteSpace (c : char) : bool :=
  ((9 <=? c) && (c <=? 13) || (c =? 32) || (c =? 160) || (c =? 5760)
   || (8192 <=? c) && (c <=? 8202) || (c =? 8232) || (c =? 8233)
   || (c =? 8239) || (c =? 8287) || (c =? 12288) || (c =? 65279))%N.

(** [\d] *)
Definition isDigit (c : char) : bool := ((48 <=? c) && (c <=? 57))%N.

Definition isChar (x : char) (c : char) : bool := (c =? x)%N.

Fixpoint dropWhile (p : char -> bool) (s : str) : str :=
  match s with
  | [] => []
  | c :: s' => if p c then dropWhile p s' else s
  end.

(** [s.trim()] *)
Definition trim (s : str) : str :=
  rev (dropWhile isWhiteSpace (rev (dropWhile isWhiteSpace s))).

(** [s.substring(a, b)] for [a <= b], and [s.substring(a)]: indices beyond
    the end are clamped to the length. *)
Definition substring (a b : nat) (s : str) : str := firstn (b - a) (skipn a s).
Definition substringFrom (a : nat) (s : str) : str := skipn a s.

(** [s.lastIndexOf(c)]: the index of the last occurrence, [-1] if none. *)
Fixpoint lastIndexOf (x : char) (s : str) : Z :=
  match s with
  | [] => (-1)%Z
  | c :: s' =>
      let r := lastIndexOf x s' in
      if (0 <=? r)%Z then (r + 1)%Z
      else if (c =? x)%N then 0%Z else (-1)%Z
  end.

(** Decimal digits of a number, as a template literal renders it. *)
Fixpoint uint_chars (d : Decimal.uint) : str :=
  match d with
  | Decimal.Nil => []
  | Decimal.D0 d => 48%N :: uint_chars d
  | Decimal.D1 d => 49%N :: uint_chars d
  | Decimal.D2 d => 50%N :: uint_chars d
  | Decimal.D3 d => 51%N :: uint_chars d
  | Decimal.D4 d => 52%N :: uint_chars d
  | Decimal.D5 d => 53%N :: uint_chars d
  | Decimal.D6 d => 54%N :: uint_chars d
  | Decimal.D7 d => 55%N :: uint_chars d
  | Decimal.D8 d => 56%N :: uint_chars d
  | Decimal.D9 d => 57%N :: uint_chars d
  end.

Definition numToString (n : nat) : str := uint_chars (Nat.to_uint n).

(** A JavaScript value, as far as [!v] and [typeof v] tell them apart. *)
Inductive value :=
| VUndefined
| VNull
| VBoolean (b : bool)
| VNumber (z : Z)
| VString (s : str)
| VObject.

Definition truthy (v : value) : bool :=
  match v with
  | VUndefined | VNull => false
  | VBoolean b => b
  | VNumber z => negb (z =? 0)%Z
  | VString s => negb (length s =? 0)
  | VObject => true
  end.

Definition isString (v : value) : bool :=
  match v with VString _ => true | _ => false end.

(** Truthiness of an environment variable ([process.env.X]): set and not
    empty. *)
Definition configured (v : option str) : bool :=
  match v with
  | Some s => negb (length s =? 0)
  | None => false
  end.

End Js.

(* ================================================================== *)
(** ** The regular expressions of the source *)
(* ================================================================== *)

Module Regex.
Import Js.

(** The patterns of the source are alternatives of sequences of character
    classes, each class taken once or under a greedy [+]. *)
Inductive atom :=
| One (cls : char -> bool)
| Many (cls : char -> bool).

Definition regex := list (list atom).

(** Greedy [cls+] followed by the continuation [k]: the longest run is tried
    first, then shorter ones (backtracking). The result is the length of the
    match. *)
Fixpoint match_many (cls : char -> bool) (k : str -> option nat) (s : str)
  : option nat :=
  match s with
  | [] => None
  | c :: s' =>
      if cls c then
        match match_many cls k s' with
        | Some n => Some (S n)
        | None => option_map S (k s')
        end
      else None
  end.

Fixpoint match_seq (r : list atom) (s : str) : option nat :=
  match r with
  | [] => Some 0
  | One cls :: r' =>
      match s with
      | c :: s' => if cls c then option_map S (match_seq r' s') else None
      | [] => None
      end
  | Many cls :: r' => match_many cls (match_seq r') s
  end.

(** Alternatives are tried in order at one position. *)
Fixpoint match_here (r : regex) (s : str) : option nat :=
  match r with
  | [] => None
  | a :: r' =>
      match match_seq a s with
      | Some n => Some n
      | None => match_here r' s
      end
  end.

(** [s.match(r)] for a pattern without the [g] flag: the leftmost match, as
    [(match.index, match[0].length)]. *)
Fixpoint exec (r : regex) (s : str) : option (nat * nat) :=
  match match_here r s with
  | Some n => Some (0, n)
  | None =>
      match s with
      | [] => None
      | _ :: s' =>
          match exec r s' with
          | Some (i, n) => Some (S i, n)
          | None => None
          end
      end
  end.

(** [s.replace(r, '')] for a pattern that starts with [^]: only a match at
    index 0 is removed. *)
Definition removeAtStart (r : regex) (s : str) : str :=
  match match_here r s with
  | Some n => skipn n s
  | None => s
  end.

(** The length of the longest prefix of [s] inside the class. *)
Fixpoint run (cls : char -> bool) (s : str) : nat :=
  match s with
  | [] => 0
  | c :: s' => if cls c then S (run cls s') else 0
  end.

End Regex.

(* ================================================================== *)
(** ** messageSplitter.js *)
(* ================================================================== *)

Module Splitter.
Import Js Regex.

Definition WHATSAPP_MESSAGE_MAX_LENGTH : nat := 4096.

Definition isSentenceEnd (c : char) : bool :=
  ((c =? 46) || (c =? 33) || (c =? 63))%N.

(** [/[.!?]\s+|\n\n+/] *)
Definition sentenceEndPattern : regex :=
  [ [One isSentenceEnd; Many isWhiteSpace];
    [One (isChar LF); Many (isChar LF)] ].

(** [/^\[\d+\/\d+\]\n\n/] (the leading [^] is carried by [removeAtStart]). *)
Definition indicatorPattern : regex :=
  [ [One (isChar 91%N); Many isDigit; One (isChar 47%N); Many isDigit;
     One (isChar 93%N); One (isChar LF); One (isChar LF)] ].

(** [Math.ceil(a / b)] for a positive length [a]: [None] is [Infinity]
    (division by zero). For lengths of strings the floating-point quotient
    rounds to the same integer as the exact one. *)
Definition ceilDiv (a b : nat) : option nat :=
  if b =? 0 then None else Some ((a + b - 1) / b).

Definition showCount (n : option nat) : str :=
  match n with
  | Some n => numToString n
  | None => lit "Infinity"
  end.

Definition moreThanOne (n : option nat) : bool :=
  match n with
  | Some n => 1 <? n
  | None => true
  end.

(** [`[${chunkNumber}/${totalChunks}]\n\n${chunkText}`] *)
Definition withIndicator (chunkNumber : nat) (totalChunks : option nat)
  (chunkText : str) : str :=
  lit "[" ++ numToString chunkNumber ++ lit "/" ++ showCount totalChunks
    ++ lit "]" ++ [LF; LF] ++ chunkText.

(** [`[Part ${index + 1}/${chunks.length}]\n\n${cleanedChunk}`] *)
Definition withPart (number total : nat) (cleanedChunk : str) : str :=
  lit "[Part " ++ numToString number ++ lit "/" ++ numToString total
    ++ lit "]" ++ [LF; LF] ++ cleanedChunk.

(** The length of the [[i/N]] indicator and its two line feeds. *)
Definition indicatorLength (number total : nat) : nat :=
  length (withIndicator number (Some total) []).

(** The split point of one iteration of the loop (lines 37-61), for a
    [remaining] longer than [maxLength]. [lineBreakIndex > maxLength * 0.8]
    is the integer comparison [5 * lineBreakIndex > 4 * maxLength]. *)
Definition splitIndex (remaining : str) (maxLength : nat) : nat :=
  let chunk := substring 0 maxLength remaining in
  let lookbackWindow := Nat.min 200 (length chunk) in
  let searchArea := substringFrom (length chunk - lookbackWindow) chunk in
  match exec sentenceEndPattern searchArea with
  | Some (index, len) => length chunk - lookbackWindow + index + len
  | None =>
      let lineBreakIndex := lastIndexOf LF chunk in
      if (4 * Z.of_nat maxLength <? 5 * lineBreakIndex)%Z
      then Z.to_nat (lineBreakIndex + 1)
      else maxLength
  end.

(** The [while (remaining.length > 0)] loop. [fuel] bounds the number of
    iterations; [None] means the bound was reached. *)
Fixpoint splitLoop (fuel : nat) (message : str) (maxLength : nat)
  (remaining : str) (chunks : list str) : option (list str) :=
  match fuel with
  | 0 => None
  | S fuel' =>
      if length remaining =? 0 then Some chunks
      else if length remaining <=? maxLength then Some (chunks ++ [remaining])
      else
        let splitIndex := splitIndex remaining maxLength in
        let chunkText := trim (substring 0 splitIndex remaining) in
        let totalChunks := ceilDiv (length message) maxLength in
        let chunkNumber := length chunks + 1 in
        let chunks' :=
          if moreThanOne totalChunks
          then chunks ++ [withIndicator chunkNumber totalChunks chunkText]
          else chunks ++ [chunkText] in
        splitLoop fuel' message maxLength
          (trim (substringFrom splitIndex remaining)) chunks'
  end.

(** [splitMessage(message, maxLength)], for a [maxLength] that is a natural
    number. Every iteration that does not leave the loop shortens
    [remaining] when [maxLength] is positive, so [length message + 1]
    iterations are enough ([splitMessage_returns]). *)
Definition splitMessage (message : value) (maxLength : nat)
  : option (list str) :=
  if negb (truthy message) || negb (isString message) then Some []
  else
    match message with
    | VString m =>
        if length m <=? maxLength then Some [m]
        else splitLoop (S (length m)) m maxLength m []
    | _ => Some []
    end.

(** [chunks.map((chunk, index) => ...)] of lines 94-98. *)
Fixpoint addIndicators (total : nat) (index : nat) (chunks : list str)
  : list str :=
  match chunks with
  | [] => []
  | chunk :: rest =>
      let cleanedChunk := removeAtStart indicatorPattern chunk in
      withPart (index + 1) total cleanedChunk
        :: addIndicators total (S index) rest
  end.

(** [splitMessageWithIndicators(message)] *)
Definition splitMessageWithIndicators (message : value)
  : option (list str) :=
  match splitMessage message WHATSAPP_MESSAGE_MAX_LENGTH with
  | None => None
  | Some chunks =>
      if length chunks <=? 1 then Some chunks
      else Some (addIndicators (length chunks) 0 chunks)
  end.

End Splitter.

(* ================================================================== *)
(** ** Effects: exceptions and an observable trace *)
(* ================================================================== *)

Module Eff.
Import Js.

(** The errors the modelled code throws, one constructor per [throw] site,
    and the errors [fetch] rejects with (they carry [error.name] and
    [error.code]). *)
Inductive error :=
| CredentialsNotConfigured
| MessageNotNonEmptyString
| MessageTooLong (len : nat)
| WhatsAppApiError (status : nat)
| UrlNotConfigured
| HaiIndexerApiError (status : nat)
| TypeError
| SyntaxError
| TimeoutError
| FetchError (name : string) (code : option string).

Definition errorName (e : error) : string :=
  match e with
  | TypeError => "TypeError"
  | SyntaxError => "SyntaxError"
  | TimeoutError => "TimeoutError"
  | FetchError name _ => name
  | _ => "Error"
  end.

Definition errorCode (e : error) : option string :=
  match e with
  | FetchError _ code => code
  | _ => None
  end.

Inductive result (A : Type) :=
| Ok (a : A)
| Throw (e : error).
Arguments Ok {A} a.
Arguments Throw {A} e.

(** A computation over a state [S] that returns or throws. *)
Definition M (S A : Type) := S -> result A * S.

Definition ret {S A} (a : A) : M S A := fun s => (Ok a, s).
Definition throw {S A} (e : error) : M S A := fun s => (Throw e, s).
Definition bind {S A B} (m : M S A) (k : A -> M S B) : M S B :=
  fun s =>
    match m s with
    | (Ok a, s') => k a s'
    | (Throw e, s') => (Throw e, s')
    end.
Definition tryCatch {S A} (m : M S A) (handler : error -> M S A) : M S A :=
  fun s =>
    match m s with
    | (Ok a, s') => (Ok a, s')
    | (Throw e, s') => handler e s'
    end.
Definition lift {S A} (r : result A) : M S A := fun s => (r, s).

(** The parsed body of a response, as far as the code inspects it:
    [data.answer], [data.response], [typeof data === 'string'] and
    [JSON.stringify(data)]. *)
Inductive json :=
| JsonNull
| JsonString (s : str)
| JsonOther (answer response : value) (stringified : str).

Record response := {
  status : nat;
  body : option json   (* [None]: [response.json()] rejects *)
}.

(** [response.ok] *)
Definition ok (r : response) : bool := (200 <=? status r) && (status r <=? 299).

Inductive request :=
| WhatsAppSend (to : str) (message : value)
| HaiIndexerQuery (apiUrl : str) (normalizedQuery : str).

(** What the outside world can observe of a run. *)
Inductive event :=
| Fetch (r : request)          (* a call of [fetchWithRetry] *)
| Sleep (ms : nat).            (* [setTimeout(resolve, ms)] awaited *)

Definition trace := list event.

End Eff.

Declare Scope eff_scope.
Delimit Scope eff_scope with eff.
Notation "x <- m ;; k" := (Eff.bind m (fun x => k))
  (at level 61, m at next level, right associativity) : eff_scope.
Notation "m ;;; k" := (Eff.bind m (fun _ => k))
  (at level 61, right associativity) : eff_scope.

(* ================================================================== *)
(** ** The call policy and the retry predicate *)
(* ================================================================== *)

Module Policy.
Import Js Eff.

(** [{timeoutMs, maxRetries, retryDelayMs, shouldRetry}], the third argument
    of [fetchWithRetry]. *)
Record CallPolicy := {
  timeoutMs : nat;
  maxRetries : nat;
  retryDelayMs : nat;
  shouldRetry : option (option error -> option response -> bool)
}.

(** [fetchWithRetry] is a collaborator whose code is not part of the
    modelled sources: a call is recorded in the trace and its outcome is
    decided by the environment, from everything that happened so far. *)
Definition Network := trace -> request -> CallPolicy -> result response.

Definition fetchWithRetry (network : Network) (r : request)
  (policy : CallPolicy) : M trace response :=
  fun t => (network t r policy, t ++ [Fetch r]).

End Policy.

(* ================================================================== *)
(** ** The WhatsApp sender *)
(* ================================================================== *)

Module Sender.
Import Js Eff Policy Splitter.
Local Open Scope eff_scope.

(** The environment variables the module reads when it is loaded. *)
Record env := {
  WHATSAPP_TOKEN : option str;
  PHONE_NUMBER_ID : option str;
  ENABLE_MESSAGE_SPLITTING : bool;
  API_TIMEOUT_MS : nat;
  API_MAX_RETRIES : nat;
  API_RETRY_DELAY_MS : nat
}.

Definition WHATSAPP_MESSAGE_MAX_LENGTH : nat := 4096.

(** [validateMessageLength(message)] *)
Definition validateMessageLength (message : value) : result unit :=
  if negb (truthy message) || negb (isString message)
  then Throw MessageNotNonEmptyString
  else
    match message with
    | VString s =>
        if WHATSAPP_MESSAGE_MAX_LENGTH <? length s
        then Throw (MessageTooLong (length s))
        else Ok tt
    | _ => Ok tt
    end.

(** The [shouldRetry] of lines 77-86. *)
Definition whatsappShouldRetry (error : option error)
  (response : option response) : bool :=
  match error with
  | Some error =>
      String.eqb (errorName error) "AbortError"
      || match errorCode error with
         | Some code => String.eqb code "ECONNREFUSED"
         | None => false
         end
      || match errorCode error with
         | Some code => String.eqb code "ETIMEDOUT"
         | None => false
         end
  | None =>
      match response with
      | Some response =>
          (status response =? 429)
          || (500 <=? status response) && (status response <? 600)
      | None => false
      end
  end.

Section WithEnvironment.

Variable E : env.

Variable network : Network.

Definition sleep (ms : nat) : M trace unit :=
  fun t => (Ok tt, t ++ [Sleep ms]).

(** [await response.json()] *)
Definition responseJson (r : response) : M trace json :=
  match body r with
  | Some data => ret data
  | None => throw SyntaxError
  end.

(** Both credentials are set. *)
Definition credentials : bool :=
  configured (WHATSAPP_TOKEN E) && configured (PHONE_NUMBER_ID E).

Definition sendPolicy : CallPolicy :=
  {| timeoutMs := API_TIMEOUT_MS E;
     maxRetries := API_MAX_RETRIES E;
     retryDelayMs := API_RETRY_DELAY_MS E;
     shouldRetry := Some whatsappShouldRetry |}.

(** [sendTextMessage(to, message)] *)
Definition sendTextMessage (to : str) (message : value) : M trace unit :=
  if negb (configured (WHATSAPP_TOKEN E))
     || negb (configured (PHONE_NUMBER_ID E))
  then throw CredentialsNotConfigured
  else
    lift (validateMessageLength message) ;;;
    tryCatch
      (response <- fetchWithRetry network (WhatsAppSend to message)
                     sendPolicy ;;
       if negb (ok response)
       then throw (WhatsAppApiError (status response))
       else
         data <- responseJson response ;;
         ret tt)
      (fun error => throw error).

(** [chunks[i]] *)
Definition at_index (chunks : list str) (i : nat) : value :=
  match nth_error chunks i with
  | Some c => VString c
  | None => VUndefined
  end.

Definition DELAY_BETWEEN_CHUNKS_MS : nat := 500.

(** The [for (let i = 0; i < chunks.length; i++)] loop of lines 126-133,
    from index [i] on; [n] is the number of iterations left. *)
Fixpoint sendChunksFrom (to : str) (chunks : list str) (i n : nat)
  : M trace unit :=
  match n with
  | 0 => ret tt
  | S n' =>
      sendTextMessage to (at_index chunks i) ;;;
      (if i <? length chunks - 1
       then sleep DELAY_BETWEEN_CHUNKS_MS
       else ret tt) ;;;
      sendChunksFrom to chunks (S i) n'
  end.

(** [sendTextMessageWithSplitting(to, message)] for a string [message].
    [None]: the call does not return (the splitter's loop does not end). *)
Definition sendTextMessageWithSplitting (to : str) (message : str)
  : trace -> option (result unit * trace) :=
  fun t =>
    if negb (ENABLE_MESSAGE_SPLITTING E)
       || (length message <=? WHATSAPP_MESSAGE_MAX_LENGTH)
    then Some (sendTextMessage to (VString message) t)
    else
      match splitMessageWithIndicators (VString message) with
      | None => None
      | Some chunks =>
          if length chunks =? 1
          then Some (sendTextMessage to (at_index chunks 0) t)
          else Some (sendChunksFrom to chunks 0 (length chunks) t)
      end.

End WithEnvironment.

End Sender.

(* ================================================================== *)
(** ** The resilient call wrapper *)
(* ================================================================== *)

Module ResilientCall.
Import Js Eff Policy.

(** What one invocation of the wrapped operation does: it settles after
    some time (or never) with a response or an error. *)
Inductive settled :=
| Responded (r : response)
| Errored (e : error).

Record attempt := {
  settlesAfter : option nat;   (* milliseconds; [None]: never *)
  settlesWith : settled
}.

Inductive wevent :=
| Attempt (number : nat)       (* the operation is invoked *)
| Wait (ms : nat).             (* the retry delay *)

(** The deadline of the spec's section 4.1: an attempt that has not settled
    before [timeoutMs] counts as a [TimeoutError]. *)
Definition underDeadline (timeoutMs : nat) (a : attempt) : settled :=
  match settlesAfter a with
  | Some ms => if ms <? timeoutMs then settlesWith a else Errored TimeoutError
  | None => Errored TimeoutError
  end.

(** A failure is an error, or a response whose status is not a success. *)
Definition isFailure (o : settled) : bool :=
  match o with
  | Responded r => negb (ok r)
  | Errored _ => true
  end.

Definition consult (p : option error -> option response -> bool)
  (o : settled) : bool :=
  match o with
  | Responded r => p None (Some r)
  | Errored e => p (Some e) None
  end.

(** The last failure goes to the caller: an error is thrown, a response is
    handed over. *)
Definition propagate (o : settled) : result response :=
  match o with
  | Responded r => Ok r
  | Errored e => Throw e
  end.

Section Wrapper.

(** The predicate used when the policy names none; the spec leaves it
    open. *)
Variable defaultShouldRetry : option error -> option response -> bool.

Definition predicateOf (policy : CallPolicy)
  : option error -> option response -> bool :=
  match shouldRetry policy with
  | Some p => p
  | None => defaultShouldRetry
  end.

(** Modelled from the spec: the retry loop of the resilient call wrapper
    (utils/retryWithTimeout, whose source is missing), after section 4.1: on
    failure it consults [shouldRetry]; if that returns true and the attempt
    count is below [maxRetries] it waits [retryDelayMs] and invokes the
    operation again; otherwise it propagates the last failure.
    [retriesLeft] is [maxRetries] minus the attempt count. *)
Fixpoint attempts (policy : CallPolicy) (operation : nat -> attempt)
  (number retriesLeft : nat) : result response * list wevent :=
  let o := underDeadline (timeoutMs policy) (operation number) in
  if isFailure o then
    if consult (predicateOf policy) o then
      match retriesLeft with
      | 0 => (propagate o, [Attempt number])
      | S retriesLeft' =>
          let (r, t) := attempts policy operation (S number) retriesLeft' in
          (r, Attempt number :: Wait (retryDelayMs policy) :: t)
      end
    else (propagate o, [Attempt number])
  else (propagate o, [Attempt number]).

(** Modelled from the spec: [execute(operation, policy)] of the resilient
    call wrapper (utils/retryWithTimeout, whose source is missing). *)
Definition execute (operation : nat -> attempt) (policy : CallPolicy)
  : result response * list wevent :=
  attempts policy operation 0 (maxRetries policy).

(** The policy's predicate accepts every failure of the operation. *)
Definition alwaysRetried (policy : CallPolicy) (operation : nat -> attempt) :=
  forall k, consult (predicateOf policy)
              (underDeadline (timeoutMs policy) (operation k)) = true.

End Wrapper.

(** Every attempt fails: by an error, a response that is not a success, or
    the deadline. *)
Definition alwaysFails (policy : CallPolicy) (operation : nat -> attempt) :=
  forall k, isFailure (underDeadline (timeoutMs policy) (operation k))
            = true.


Definition isAttempt (e : wevent) : bool :=
  match e with Attempt _ => true | Wait _ => false end.

(** How often the operation was invoked in a run. *)
Definition invocations (t : list wevent) : nat :=
  length (filter isAttempt t).

(** The trace the spec promises for an operation that always fails:
    [maxRetries + 1] attempts, a delay between two attempts, none at the
    end. *)
Fixpoint retried (delay number retries : nat) : list wevent :=
  match retries with
  | 0 => [Attempt number]
  | S retries' =>
      Attempt number :: Wait delay :: retried delay (S number) retries'
  end.

End ResilientCall.

(* ================================================================== *)
(** ** The circuit breaker *)
(* ================================================================== *)

Module Breaker.
Import Js Eff.

Record BreakerConfig := {
  failureThreshold : nat;
  successThreshold : nat;
  timeoutMs : nat;
  resetTimeoutMs : nat
}.

Inductive BreakerState := CLOSED | OPEN | HALF_OPEN.

Record t := {
  state : BreakerState;
  failureCount : nat;
  successCount : nat;
  openedAt : nat
}.

Definition initial : t :=
  {| state := CLOSED; failureCount := 0; successCount := 0; openedAt := 0 |}.

Definition isOPEN (s : BreakerState) : bool :=
  match s with OPEN => true | _ => false end.

Section WithConfig.

Variable cfg : BreakerConfig.

(** How a success while CLOSED changes the rolling failure counter; the spec
    leaves it open. *)
Variable afterSuccess : nat -> nat.

(** Modelled from the spec: the time-driven transition of the circuit
    breaker (utils/circuitBreaker, whose source is missing), after section
    4.2: once [resetTimeoutMs] has elapsed since entering OPEN, the next
    call moves the breaker to HALF_OPEN. *)
Definition atTime (now : nat) (b : t) : t :=
  match state b with
  | OPEN =>
      if resetTimeoutMs cfg <=? now - openedAt b
      then {| state := HALF_OPEN; failureCount := failureCount b;
              successCount := 0; openedAt := openedAt b |}
      else b
  | _ => b
  end.

(** Modelled from the spec: the breaker's reaction to a success of the
    protected call (utils/circuitBreaker, whose source is missing): while
    HALF_OPEN the success counter grows and reaching [successThreshold]
    closes the breaker and resets both counters. *)
Definition onSuccess (b : t) : t :=
  match state b with
  | HALF_OPEN =>
      if successThreshold cfg <=? successCount b + 1
      then {| state := CLOSED; failureCount := 0; successCount := 0;
              openedAt := openedAt b |}
      else {| state := HALF_OPEN; failureCount := failureCount b;
              successCount := successCount b + 1; openedAt := openedAt b |}
  | _ =>
      {| state := state b; failureCount := afterSuccess (failureCount b);
         successCount := successCount b; openedAt := openedAt b |}
  end.

(** Modelled from the spec: the breaker's reaction to a failure of the
    protected call (utils/circuitBreaker, whose source is missing): while
    CLOSED the failure counter grows and reaching [failureThreshold] opens
    the breaker and records the time; any failure while HALF_OPEN opens it
    again and restarts the clock. *)
Definition onFailure (now : nat) (b : t) : t :=
  match state b with
  | HALF_OPEN =>
      {| state := OPEN; failureCount := failureCount b;
         successCount := 0; openedAt := now |}
  | _ =>
      if failureThreshold cfg <=? failureCount b + 1
      then {| state := OPEN; failureCount := failureCount b + 1;
              successCount := successCount b; openedAt := now |}
      else {| state := state b; failureCount := failureCount b + 1;
              successCount := successCount b; openedAt := openedAt b |}
  end.

(** Modelled from the spec: [execute(operation, fallback)] of the circuit
    breaker (utils/circuitBreaker, whose source is missing), after section
    4.2: OPEN short-circuits to [fallback()] without invoking the operation;
    otherwise the operation runs, its result is returned on success, and on
    failure [fallback()] is returned instead of the error. The call happens
    at time [now]; a trial that exceeds [timeoutMs] is one of the failures
    of [operation]. The operation acts on the trace only, the breaker's
    record is the wrapper's own. *)
Definition execute {A} (now : nat) (operation : M trace A)
  (fallback : unit -> A) : M (t * trace) A :=
  fun '(b, tr) =>
    let b := atTime now b in
    if isOPEN (state b) then (Ok (fallback tt), (b, tr))
    else
      match operation tr with
      | (Ok a, tr') => (Ok a, (onSuccess b, tr'))
      | (Throw _, tr') => (Ok (fallback tt), (onFailure now b, tr'))
      end.

End WithConfig.

(** Modelled from the spec: the manual [reset()] of the circuit breaker
    (utils/circuitBreaker, whose source is missing): back to CLOSED with
    zeroed counters. *)
Definition reset (b : t) : t := initial.

End Breaker.

(* ================================================================== *)
(** ** The HaiIndexer client *)
(* ================================================================== *)

Module HaiIndexer.
Import Js Eff Policy.
Local Open Scope eff_scope.

Record env := {
  HAIINDEXER_API_URL : option str;
  API_TIMEOUT_MS : nat;
  API_MAX_RETRIES : nat;
  API_RETRY_DELAY_MS : nat;
  CIRCUIT_BREAKER_CONFIG : Breaker.BreakerConfig
}.

(** The returned [{answer: ...}] object. *)
Record Answer := { answer : value }.

Fixpoint startsWith (p s : str) : bool :=
  match p, s with
  | [], _ => true
  | _ :: _, [] => false
  | a :: p', b :: s' => (a =? b)%N && startsWith p' s'
  end.

(** [s.includes(p)] *)
Fixpoint includes (p s : str) : bool :=
  startsWith p s ||
  match s with
  | [] => false
  | _ :: s' => includes p s'
  end.

(** [s.replace(/\/$/, '')] *)
Definition dropFinalSlash (s : str) : str :=
  match rev s with
  | c :: r => if (c =? 47)%N then rev r else s
  | [] => s
  end.

Definition busyText : str :=
  lit "Sorry, the system is currently busy. Please try again in a few moments.".

(** The fallback of lines 186-191. *)
Definition fallback (_ : unit) : Answer :=
  {| answer := VString busyText |}.

Section WithEnvironment.

Variable E : env.
Variable network : Network.
Variable afterSuccess : nat -> nat.

Definition queryPolicy : CallPolicy :=
  {| timeoutMs := API_TIMEOUT_MS E;
     maxRetries := API_MAX_RETRIES E;
     retryDelayMs := API_RETRY_DELAY_MS E;
     shouldRetry := None |}.

(** The protected operation of lines 142-186. *)
Definition operation (url : str) (normalizedQuery : str) : M trace Answer :=
  let apiUrl :=
    if negb (includes (lit "/api/ui/query") url)
    then dropFinalSlash url ++ lit "/api/ui/query"
    else url in
  response <- fetchWithRetry network
                (HaiIndexerQuery apiUrl normalizedQuery) queryPolicy ;;
  if negb (ok response)
  then throw (HaiIndexerApiError (status response))
  else
    match body response with
    | None => throw SyntaxError
    | Some JsonNull => throw TypeError
    | Some (JsonString s) => ret {| answer := VString s |}
    | Some (JsonOther a r stringified) =>
        if truthy a then ret {| answer := a |}
        else if truthy r then ret {| answer := r |}
        else ret {| answer := VString stringified |}
    end.

(** [queryHaiIndexer(normalizedQuery)], called at time [now]. The state is
    the module's circuit breaker and the trace. *)
Definition queryHaiIndexer (normalizedQuery : str) (now : nat)
  : M (Breaker.t * trace) Answer :=
  if negb (configured (HAIINDEXER_API_URL E))
  then throw UrlNotConfigured
  else
    Breaker.execute (CIRCUIT_BREAKER_CONFIG E) afterSuccess now
      (operation
         (match HAIINDEXER_API_URL E with Some u => u | None => [] end)
         normalizedQuery)
      fallback.

(** [resetCircuitBreaker()] *)
Definition resetCircuitBreaker (s : Breaker.t * trace) : Breaker.t * trace :=
  (Breaker.reset (fst s), snd s).

(** The states the module can be in: it is loaded with a fresh breaker, and
    only [queryHaiIndexer] and [resetCircuitBreaker] touch it. *)
Inductive reachable : Breaker.t * trace -> Prop :=
| reach_loaded : reachable (Breaker.initial, [])
| reach_query q now s :
    reachable s -> reachable (snd (queryHaiIndexer q now s))
| reach_reset s :
    reachable s -> reachable (resetCircuitBreaker s).

End WithEnvironment.

End HaiIndexer.

(* ================================================================== *)
(** ** The specification's wording, as definitions *)
(* ================================================================== *)

Module Claimed.
Import Js Regex Splitter.

(** The rightmost position at which the pattern matches, as
    [(index, length)]. *)
Fixpoint execLatest (r : regex) (s : str) : option (nat * nat) :=
  match s with
  | [] => None
  | _ :: s' =>
      match execLatest r s' with
      | Some (i, n) => Some (S i, n)
      | None =>
          match match_here r s with
          | Some n => Some (0, n)
          | None => None
          end
      end
  end.

(** The cut point in the words of the specification: the latest sentence
    boundary within the last 200 characters of the prefix; failing that the
    last line break if it lies at or after 80% of [maxLength]; failing that
    [maxLength]. *)
Definition cutPoint (remaining : str) (maxLength : nat) : nat :=
  let prefix := substring 0 maxLength remaining in
  let window := Nat.min 200 (length prefix) in
  match execLatest sentenceEndPattern
          (substringFrom (length prefix - window) prefix) with
  | Some (index, len) => length prefix - window + index + len
  | None =>
      let lineBreak := lastIndexOf LF prefix in
      if (0 <=? lineBreak)%Z && (4 * Z.of_nat maxLength <=? 5 * lineBreak)%Z
      then Z.to_nat (lineBreak + 1)
      else maxLength
  end.

(** [/\[Part \d+\/\d+\]\n\n/], the chunk header of the glossary. *)
Definition partPattern : regex :=
  [ [One (isChar 91%N); One (isChar 80%N); One (isChar 97%N);
     One (isChar 114%N); One (isChar 116%N); One (isChar 32%N);
     Many isDigit; One (isChar 47%N); Many isDigit;
     One (isChar 93%N); One (isChar LF); One (isChar LF)] ].

(** A header of either pass at the start of [s], as its length. *)
Definition headerAtStart (s : str) : option nat :=
  match_here (partPattern ++ indicatorPattern) s.

(** [s] starts with two headers in a row. *)
Definition carriesTwoHeaders (s : str) : bool :=
  match headerAtStart s with
  | Some n =>
      match headerAtStart (skipn n s) with
      | Some _ => true
      | None => false
      end
  | None => false
  end.

End Claimed.

(* ================================================================== *)
(** ** Positions in a chunk *)
(* ================================================================== *)

Module Boundary.
Import Js Regex Splitter.

(** The class of characters that continues a boundary which starts with
    [c]: white space after a sentence end, line feeds after a line feed. *)
Definition continues (c : char) : char -> bool :=
  if isSentenceEnd c then isWhiteSpace else isChar LF.

(** A sentence boundary starts at index [p] of [chunk]: a [.], [!] or [?]
    followed by white space, or two line feeds. *)
Definition startsAt (chunk : str) (p : nat) : Prop :=
  exists c d,
    nth_error chunk p = Some c /\ nth_error chunk (S p) = Some d /\
    (isSentenceEnd c = true \/ c = LF) /\ continues c d = true.

(** The boundary that starts at [p] ends just before index [q]: everything
    in between continues it, and what follows (if anything) does not. *)
Definition endsAt (chunk : str) (p q : nat) : Prop :=
  exists c,
    nth_error chunk p = Some c /\ p + 2 <= q <= length chunk /\
    (forall j d, p < j < q -> nth_error chunk j = Some d ->
                 continues c d = true) /\
    (forall d, nth_error chunk q = Some d -> continues c d = false).

(** [i] is the index of the last line feed of [chunk]. *)
Definition lastLineBreak (chunk : str) (i : nat) : Prop :=
  nth_error chunk i = Some LF /\
  forall j, i < j -> nth_error chunk j <> Some LF.

End Boundary.

(* ================================================================== *)
(** ** The bodies of the chunks *)
(* ================================================================== *)

Module Bodies.
Import Js Splitter.

(** [text] is the [bodies] in their order, with white space only before,
    between and after them. *)
Inductive reassembles : str -> list str -> Prop :=
| reassembles_end ws :
    forallb isWhiteSpace ws = true -> reassembles ws []
| reassembles_body ws body rest bodies :
    forallb isWhiteSpace ws = true ->
    reassembles rest bodies ->
    reassembles (ws ++ body ++ rest) (body :: bodies).

(** A chunk of [splitMessage] is its body, with or without an indicator in
    front. *)
Definition rendersAs (chunk body : str) : Prop :=
  chunk = body \/ exists number total, chunk = withIndicator number total body.

End Bodies.

(* ================================================================== *)
(** ** Traces of the sender *)
(* ================================================================== *)

Module Traces.
Import Js Eff Sender.

(** The request that carries [chunk] to [to]. *)
Definition sent (to : str) (chunk : str) : event :=
  Fetch (WhatsAppSend to (VString chunk)).

(** Each chunk sent and followed by the delay. *)
Definition sentWithDelay (to : str) (chunks : list str) : trace :=
  flat_map (fun c => [sent to c; Sleep DELAY_BETWEEN_CHUNKS_MS]) chunks.

(** All chunks sent in order, the delay between two of them and not after
    the last. *)
Fixpoint sentInOrder (to : str) (chunks : list str) : trace :=
  match chunks with
  | [] => []
  | [c] => [sent to c]
  | c :: rest => sent to c :: Sleep DELAY_BETWEEN_CHUNKS_MS
                   :: sentInOrder to rest
  end.

(** A request whose message is a non-empty string within the limit. *)
Definition withinLimit (e : event) : Prop :=
  match e with
  | Fetch (WhatsAppSend _ (VString s)) =>
      1 <= length s <= WHATSAPP_MESSAGE_MAX_LENGTH
  | Fetch _ => False
  | Sleep _ => True
  end.

End Traces.

(* ================================================================== *)
(** ** The Redis client service *)
(* ================================================================== *)

Module RedisClient.
Import Js.

(** [retryStrategy(times)] of lines 32-36: [Math.min(times * 50, 2000)]. *)
Definition retryStrategy (times : nat) : nat := Nat.min (times * 50) 2000.

(** A client object made by [new Redis(...)], known by its identity. *)
Definition client := nat.

(** What the module does to the outside. *)
Inductive revent :=
| Constructed (url : str) (c : client)   (* [new Redis(REDIS_URL, ...)] *)
| ConstructionFailed (url : str)         (* the [catch] branch: a warning *)
| Quit (c : client)                      (* [client.quit()] resolved *)
| QuitFailed (c : client).               (* [client.quit()] rejected *)

(** The module's state: the variable [redisClient] and what happened. *)
Record state := {
  redisClient : option client;
  history : list revent
}.

Definition loaded : state := {| redisClient := None; history := [] |}.

Section WithLibrary.

(** [require('ioredis')] and [new Redis(url, options)] are not part of the
    modelled sources: the constructor gives a client or throws ([None]),
    a client reports a status, and [quit()] resolves or rejects, all decided
    by the environment from what happened so far. Registering the three
    event handlers on a new client does not throw. *)
Variable construct : list revent -> str -> option client.
Variable status : list revent -> client -> string.
Variable quit : list revent -> client -> bool.

(** [getRedisClient()], with the value of [process.env.REDIS_URL] at the
    time of the call. *)
Definition getRedisClient (REDIS_URL : option str) (s : state)
  : option client * state :=
  match redisClient s with
  | Some c => (Some c, s)
  | None =>
      if negb (configured REDIS_URL) then (None, s)
      else
        let url := match REDIS_URL with Some u => u | None => [] end in
        match construct (history s) url with
        | Some c =>
            (Some c, {| redisClient := Some c;
                        history := history s ++ [Constructed url c] |})
        | None =>
            (None, {| redisClient := None;
                      history := history s ++ [ConstructionFailed url] |})
        end
  end.

(** [isRedisAvailable()] *)
Definition isRedisAvailable (REDIS_URL : option str) (s : state)
  : bool * state :=
  let (client, s') := getRedisClient REDIS_URL s in
  match client with
  | Some c => (String.eqb (status (history s') c) "ready", s')
  | None => (false, s')
  end.

(** [closeRedisClient()]: [true] when it returns, [false] when the awaited
    [quit()] rejects and the rejection is the caller's. *)
Definition closeRedisClient (s : state) : bool * state :=
  match redisClient s with
  | Some c =>
      if quit (history s) c
      then (true, {| redisClient := None; history := history s ++ [Quit c] |})
      else (false, {| redisClient := Some c;
                      history := history s ++ [QuitFailed c] |})
  | None => (true, s)
  end.

(** One call of an exported function. *)
Inductive call :=
| GetRedisClient (REDIS_URL : option str)
| IsRedisAvailable (REDIS_URL : option str)
| CloseRedisClient.

Definition step (c : call) (s : state) : state :=
  match c with
  | GetRedisClient u => snd (getRedisClient u s)
  | IsRedisAvailable u => snd (isRedisAvailable u s)
  | CloseRedisClient => snd (closeRedisClient s)
  end.

(** The state after a sequence of calls on the freshly loaded module. *)
Definition after (calls : list call) : state :=
  fold_left (fun s c => step c s) calls loaded.

End WithLibrary.

(** The clients that were constructed and not closed since. *)
Fixpoint live (h : list revent) (acc : list client) : list client :=
  match h with
  | [] => acc
  | Constructed _ c :: h' => live h' (acc ++ [c])
  | Quit c :: h' => live h' (remove Nat.eq_dec c acc)
  | _ :: h' => live h' acc
  end.

End RedisClient.

(* ================================================================== *)
(** ** The check of the environment variables (test-setup) *)
(* ================================================================== *)

Module EnvCheck.
Import Js.

Definition requiredVars : list string :=
  ["WHATSAPP_TOKEN"; "PHONE_NUMBER_ID"; "VERIFY_TOKEN";
   "HAIINDEXER_API_URL"]%string.

Definition recommendedVars : list string :=
  ["WHATSAPP_APP_SECRET"]%string.

(** The lines [validateEnv] prints, by kind; a variable's line carries its
    name. *)
Inductive line :=
| ErrorMissingRequired                 (* console.error, the heading *)
| ErrorVariable (varName : string)     (* console.error, one per variable *)
| ErrorPleaseSet                       (* console.error, the advice *)
| LogAllSet                            (* console.log *)
| WarnMissingRecommended               (* console.warn, the heading *)
| WarnVariable (varName : string).     (* console.warn, one per variable *)

Inductive outcome :=
| Exited (code : nat)                  (* [process.exit(code)] *)
| Returned.

(** [validateEnv()], with [process.env] as a function from names to the
    values that are set. *)
Definition validateEnv (env : string -> option str) : outcome * list line :=
  let missing := filter (fun varName => negb (configured (env varName)))
                   requiredVars in
  if 0 <? length missing then
    (Exited 1,
     [ErrorMissingRequired] ++ map ErrorVariable missing ++ [ErrorPleaseSet])
  else
    let missingRecommended :=
      filter (fun varName => negb (configured (env varName)))
        recommendedVars in
    (Returned,
     [LogAllSet] ++
     (if 0 <? length missingRecommended
      then [WarnMissingRecommended] ++ map WarnVariable missingRecommended
      else [])).

End EnvCheck.

(* ================================================================== *)
(** ** Sample environments and inputs *)
(* ================================================================== *)

Module Sample.
Import Js Eff Policy.

Definition senderEnv : Sender.env :=
  {| Sender.WHATSAPP_TOKEN := Some (lit "token");
     Sender.PHONE_NUMBER_ID := Some (lit "1055");
     Sender.ENABLE_MESSAGE_SPLITTING := true;
     Sender.API_TIMEOUT_MS := 15000;
     Sender.API_MAX_RETRIES := 2;
     Sender.API_RETRY_DELAY_MS := 1000 |}.

Definition recipient : str := lit "4915112345".

(** Every request is answered with 200 and a JSON body. *)
Definition accepts : Network :=
  fun _ _ _ => Ok {| status := 200; body := Some JsonNull |}.

(** Every request is answered with 400. *)
Definition rejects : Network :=
  fun _ _ _ => Ok {| status := 400; body := None |}.

(** The first request is accepted, every later one is answered with 500. *)
Definition acceptsOnce : Network :=
  fun t _ _ =>
    if length t =? 0 then Ok {| status := 200; body := Some JsonNull |}
    else Ok {| status := 500; body := None |}.

(** No connection. *)
Definition down : Network :=
  fun _ _ _ => Throw (FetchError "FetchError" (Some "ECONNREFUSED"%string)).

(** 4000 letters, a full stop and a space, 1000 letters. *)
Definition twoSentences : str :=
  repeat 97%N 4000 ++ lit ". " ++ repeat 98%N 1000.

Definition policy : CallPolicy :=
  {| timeoutMs := 15000; maxRetries := 2; retryDelayMs := 1000;
     shouldRetry := Some Sender.whatsappShouldRetry |}.

(** An operation that answers 400 after 10 ms, every time. *)
Definition badRequest : nat -> ResilientCall.attempt :=
  fun _ =>
    {| ResilientCall.settlesAfter := Some 10;
       ResilientCall.settlesWith :=
         ResilientCall.Responded {| status := 400; body := None |} |}.

(** An operation that answers 503 after 10 ms, every time. *)
Definition unavailable : nat -> ResilientCall.attempt :=
  fun _ =>
    {| ResilientCall.settlesAfter := Some 10;
       ResilientCall.settlesWith :=
         ResilientCall.Responded {| status := 503; body := None |} |}.

Definition clientEnv : HaiIndexer.env :=
  {| HaiIndexer.HAIINDEXER_API_URL := Some (lit "http://hai:8000/");
     HaiIndexer.API_TIMEOUT_MS := 30000;
     HaiIndexer.API_MAX_RETRIES := 3;
     HaiIndexer.API_RETRY_DELAY_MS := 1000;
     HaiIndexer.CIRCUIT_BREAKER_CONFIG :=
       {| Breaker.failureThreshold := 1;
          Breaker.successThreshold := 2;
          Breaker.timeoutMs := 60000;
          Breaker.resetTimeoutMs := 30000 |} |}.

(** The client after one query at time 0 that found the backend down: with
    a failure threshold of 1 the breaker is OPEN. *)
Definition tripped : Breaker.t * trace :=
  snd (HaiIndexer.queryHaiIndexer clientEnv down (fun n => 0) (lit "{}") 0
         (Breaker.initial, [])).

End Sample.

(* ================================================================== *)
(** ** Shapes of chunks and counts of events *)
(* ================================================================== *)

Module Shape.
Import Js Splitter Eff.

(** A chunk at index [k] of the result: behind the indicator [[k+1/total]],
    or the unmarked rest of the text at the very end. *)
Definition chunkShape (maxLength total : nat) (out : list str) (k : nat)
  (chunk : str) : Prop :=
  (exists body,
      chunk = withIndicator (k + 1) (Some total) body /\
      trim body = body /\ length body <= maxLength)
  \/
  (S k = length out /\ chunk <> [] /\ trim chunk = chunk /\
   length chunk <= maxLength).

(** No white space in [s]. *)
Definition unbroken (s : str) : Prop :=
  Forall (fun c => isWhiteSpace c = false) s.

(** The requests and the delays of a trace. *)
Definition isFetch (e : event) : bool :=
  match e with Fetch _ => true | Sleep _ => false end.

Definition fetches (t : trace) : nat := length (filter isFetch t).
Definition sleeps (t : trace) : nat :=
  length (filter (fun e => negb (isFetch e)) t).

End Shape.

(* ================================================================== *)
(** ** Calls of the Redis client service *)
(* ================================================================== *)

Module RedisUse.
Import Js RedisClient.

(** A call made while [REDIS_URL] is unset or empty. *)
Definition withoutUrl (c : call) : Prop :=
  match c with
  | GetRedisClient u | IsRedisAvailable u => configured u = false
  | CloseRedisClient => True
  end.

(** A call of [getRedisClient] or [isRedisAvailable]: any call but
    [closeRedisClient]. *)
Definition notClosing (c : call) : Prop :=
  match c with
  | GetRedisClient _ | IsRedisAvailable _ => True
  | CloseRedisClient => False
  end.

(** The cached client, as the list of clients that are in use. *)
Definition cached (s : state) : list client :=
  match redisClient s with
  | Some c => [c]
  | None => []
  end.

End RedisUse.

(* ================================================================== *)
(** ** Further sample environments *)
(* ================================================================== *)

Module Fixtures.
Import Js Eff Policy.

(** The sample sender with [ENABLE_MESSAGE_SPLITTING=false]. *)
Definition noSplitting : Sender.env :=
  {| Sender.WHATSAPP_TOKEN := Some (lit "token");
     Sender.PHONE_NUMBER_ID := Some (lit "1055");
     Sender.ENABLE_MESSAGE_SPLITTING := false;
     Sender.API_TIMEOUT_MS := 15000;
     Sender.API_MAX_RETRIES := 2;
     Sender.API_RETRY_DELAY_MS := 1000 |}.

(** A Redis library whose constructor hands out client 7, whose clients
    are ready and whose [quit()] resolves. *)
Definition construct7 : list RedisClient.revent -> str -> option nat :=
  fun _ _ => Some 7.
Definition ready : list RedisClient.revent -> nat -> string :=
  fun _ _ => "ready"%string.
Definition quits : list RedisClient.revent -> nat -> bool :=
  fun _ _ => true.

(** The module after client 7 was constructed for [redis://cache]. *)
Definition holding7 : RedisClient.state :=
  {| RedisClient.redisClient := Some 7;
     RedisClient.history :=
       [RedisClient.Constructed (lit "redis://cache") 7] |}.

(** A [process.env] with the four required variables and nothing else. *)
Definition requiredOnly (name : string) : option str :=
  if String.eqb name "WHATSAPP_TOKEN" then Some (lit "token")
  else if String.eqb name "PHONE_NUMBER_ID" then Some (lit "1055")
  else if String.eqb name "VERIFY_TOKEN" then Some (lit "verify")
  else if String.eqb name "HAIINDEXER_API_URL" then Some (lit "http://hai")
  else None.

End Fixtures.

(* ================================================================== *)
(** * Properties *)
(* ================================================================== *)

Import Js Regex Splitter Eff Policy.

(** ** Strings *)

Lemma dropWhile_length p s : length (dropWhile p s) <= length s.
Proof.
  induction s as [|c s IH]; simpl; [lia|].
  destruct (p c); simpl; lia.
Qed.

Lemma trim_length s : length (trim s) <= length s.
Proof.
  unfold trim. rewrite length_rev.
  etransitivity; [apply dropWhile_length|].
  rewrite length_rev. apply dropWhile_length.
Qed.

Lemma uint_chars_digits d : forallb isDigit (uint_chars d) = true.
Proof. induction d; simpl; auto. Qed.

Lemma numToString_digits n : forallb isDigit (numToString n) = true.
Proof. apply uint_chars_digits. Qed.

Lemma numToString_nonempty n : numToString n <> [].
Proof.
  unfold numToString.
  pose proof (DecimalNat.Unsigned.of_to n) as H.
  destruct n as [|n]; [discriminate|].
  destruct (Nat.to_uint (S n)); simpl; discriminate.
Qed.

(** ** The splitter on concrete messages *)

(** C3 (as stated) fails on the empty string: it is not longer than
    [maxLength], and [splitMessage] returns no chunk for it. *)
Lemma splitMessage_empty_no_chunk :
  length (@nil char) <= WHATSAPP_MESSAGE_MAX_LENGTH /\
  splitMessage (VString []) WHATSAPP_MESSAGE_MAX_LENGTH = Some [] /\
  splitMessage (VString []) WHATSAPP_MESSAGE_MAX_LENGTH <> Some [ [] ].
Proof. repeat split; [simpl; lia|discriminate]. Qed.

(** C3 (amended): a non-empty string that is not longer than [maxLength]
    comes back as the single chunk, unmodified and without a header. *)
Theorem splitMessage_fits (text : str) (maxLength : nat) :
  text <> [] -> length text <= maxLength ->
  splitMessage (VString text) maxLength = Some [text].
Proof.
  intros Hne Hlen. unfold splitMessage.
  destruct text as [|c text]; [congruence|].
  cbn [truthy isString length Nat.eqb negb orb].
  apply Nat.leb_le in Hlen. cbn [length] in Hlen. now rewrite Hlen.
Qed.

(** [splitMessage_fits] at the message [Hi]. *)
Lemma splitMessage_fits_witness :
  splitMessage (VString (lit "Hi")) 4096 = Some [lit "Hi"].
Proof.
  apply splitMessage_fits; [discriminate | simpl; lia].
Defined.

(** C1 at a failing input: for 5000 letters the first chunk is 4096 letters
    behind a 12-character header, 4108 characters in all. *)
Theorem splitMessageWithIndicators_over_limit :
  splitMessageWithIndicators (VString (repeat 97%N 5000))
  = Some [withPart 1 2 (repeat 97%N 4096); withPart 2 2 (repeat 97%N 904)]
  /\ length (withPart 1 2 (repeat 97%N 4096)) = 4108
  /\ WHATSAPP_MESSAGE_MAX_LENGTH < 4108.
Proof. vm_compute. repeat split; lia. Qed.

(** C2 at a failing input: 4096 letters and a space come back as one chunk
    whose header announces two. *)
Theorem splitMessageWithIndicators_count_mismatch :
  WHATSAPP_MESSAGE_MAX_LENGTH < length (repeat 97%N 4096 ++ [32%N]) /\
  splitMessageWithIndicators (VString (repeat 97%N 4096 ++ [32%N]))
  = Some [withIndicator 1 (Some 2) (repeat 97%N 4096)].
Proof. vm_compute. split; [lia | reflexivity]. Qed.

(** ** The matcher *)

Lemma exec_Some r s i n :
  exec r s = Some (i, n) ->
  match_here r (skipn i s) = Some n /\ i <= length s /\
  forall j, j < i -> match_here r (skipn j s) = None.
Proof.
  revert i. induction s as [|c s IH]; intros i H; simpl in H.
  - destruct (match_here r []) eqn:E; [|discriminate].
    injection H as <- <-. repeat split; auto; intros; lia.
  - destruct (match_here r (c :: s)) eqn:E.
    + injection H as <- <-. repeat split; auto; simpl; intros; lia.
    + destruct (exec r s) as [[i' n']|] eqn:E'; [|discriminate].
      injection H as <- <-.
      destruct (IH i' eq_refl) as (Hm & Hle & Hbefore).
      repeat split; simpl; auto; [lia|].
      intros [|j] Hj; simpl; auto. apply Hbefore. lia.
Qed.

Lemma exec_None r s :
  exec r s = None -> forall j, j <= length s -> match_here r (skipn j s) = None.
Proof.
  induction s as [|c s IH]; intros H j Hj; simpl in H.
  - destruct (match_here r []) eqn:E; [discriminate|].
    now destruct j.
  - destruct (match_here r (c :: s)) eqn:E; [discriminate|].
    destruct (exec r s) as [[i' n']|] eqn:E'; [discriminate|].
    destruct j as [|j]; simpl; auto. apply IH; auto. simpl in Hj. lia.
Qed.

Lemma match_many_last cls s :
  match_many cls (match_seq []) s
  = if run cls s =? 0 then None else Some (run cls s).
Proof.
  induction s as [|c s IH]; cbn [match_many run]; auto.
  destruct (cls c); cbn [Nat.eqb]; auto.
  rewrite IH. destruct (run cls s) eqn:E; cbn [Nat.eqb]; auto.
Qed.

(** What [/[.!?]\s+|\n\n+/] matches at the start of a string. *)
Lemma sentenceEnd_here s :
  match_here sentenceEndPattern s =
  match s with
  | [] => None
  | c :: s' =>
      if isSentenceEnd c || isChar LF c then
        if run (Boundary.continues c) s' =? 0 then None
        else Some (S (run (Boundary.continues c) s'))
      else None
  end.
Proof.
  destruct s as [|c s]; auto.
  unfold sentenceEndPattern, match_here, Boundary.continues.
  cbn [match_seq]. rewrite !match_many_last.
  destruct (isSentenceEnd c) eqn:E; simpl.
  - assert (isChar LF c = false) as ->.
    { unfold isSentenceEnd, isChar, LF in *.
      destruct (N.eqb_spec c 10); auto. subst. discriminate. }
    destruct (run isWhiteSpace s); simpl; auto.
  - destruct (isChar LF c); simpl; auto.
    destruct (run (isChar LF) s); simpl; auto.
Qed.

Lemma sentenceEnd_here_length s n :
  match_here sentenceEndPattern s = Some n -> 2 <= n <= length s.
Proof.
  rewrite sentenceEnd_here. destruct s as [|c s]; [discriminate|].
  destruct (_ || _); [|discriminate].
  destruct (run _ s) eqn:E; simpl; [discriminate|].
  intros [= <-].
  assert (forall cls t, run cls t <= length t) as Hrun.
  { intros cls t. induction t as [|d t IH]; simpl; auto.
    destruct (cls d); lia. }
  specialize (Hrun (Boundary.continues c) s). lia.
Qed.

(** ** The split point is inside the prefix *)

Lemma substring_prefix n (s : str) : substring 0 n s = firstn n s.
Proof. unfold substring. now rewrite Nat.sub_0_r. Qed.

Lemma lastIndexOf_bound x s : (-1 <= lastIndexOf x s < Z.of_nat (length s))%Z.
Proof.
  induction s as [|c s IH]; simpl length; simpl lastIndexOf; [lia|].
  destruct (Z.leb_spec 0 (lastIndexOf x s)); [lia|].
  destruct (c =? x)%N; lia.
Qed.

Lemma splitIndex_bounds remaining maxLength :
  0 < maxLength -> maxLength < length remaining ->
  1 <= splitIndex remaining maxLength <= maxLength.
Proof.
  intros Hpos Hlong. unfold splitIndex.
  rewrite substring_prefix.
  assert (length (firstn maxLength remaining) = maxLength) as Hlen
    by (rewrite length_firstn; lia).
  rewrite Hlen. unfold substringFrom.
  set (w := Nat.min 200 maxLength).
  destruct (exec _ _) as [[i n]|] eqn:E.
  - apply exec_Some in E. destruct E as (Hm & Hi & _).
    apply sentenceEnd_here_length in Hm.
    rewrite !length_skipn in *. rewrite Hlen in *. lia.
  - pose proof (lastIndexOf_bound LF (firstn maxLength remaining)) as Hb.
    rewrite Hlen in Hb.
    destruct (Z.ltb_spec (4 * Z.of_nat maxLength)
                (5 * lastIndexOf LF (firstn maxLength remaining))); lia.
Qed.

(** ** The splitter returns *)

Lemma splitLoop_returns fuel message maxLength remaining chunks :
  0 < maxLength -> length remaining < fuel ->
  exists out, splitLoop fuel message maxLength remaining chunks = Some out.
Proof.
  intros Hpos. revert remaining chunks.
  induction fuel as [|fuel IH]; intros remaining chunks Hfuel; [lia|].
  cbn [splitLoop].
  destruct (length remaining =? 0); [eauto|].
  destruct (Nat.leb_spec (length remaining) maxLength) as [|Hlong]; [eauto|].
  apply IH.
  pose proof (splitIndex_bounds remaining Hpos Hlong) as Hsi.
  pose proof (trim_length
    (substringFrom (splitIndex remaining maxLength) remaining)) as Ht.
  unfold substringFrom in *. rewrite length_skipn in Ht. lia.
Qed.

Theorem splitMessage_returns message maxLength :
  0 < maxLength -> exists chunks, splitMessage message maxLength = Some chunks.
Proof.
  intros Hpos. unfold splitMessage.
  destruct (_ || _); eauto.
  destruct message; eauto.
  destruct (_ <=? _); eauto.
  apply splitLoop_returns; auto.
Qed.

Theorem splitMessageWithIndicators_returns message :
  exists chunks, splitMessageWithIndicators message = Some chunks.
Proof.
  unfold splitMessageWithIndicators.
  destruct (@splitMessage_returns message WHATSAPP_MESSAGE_MAX_LENGTH)
    as [chunks ->]; [unfold WHATSAPP_MESSAGE_MAX_LENGTH; lia|].
  destruct (_ <=? _); eauto.
Qed.

(** ** The bodies of the chunks *)

Section BodiesOfChunks.
Import Bodies.

Lemma dropWhile_split p s :
  exists w, s = w ++ dropWhile p s /\ forallb p w = true.
Proof.
  induction s as [|c s (w & Hs & Hw)]; [exists []; auto|].
  cbn [dropWhile]. destruct (p c) eqn:E.
  - exists (c :: w). cbn. rewrite E, Hw. split; [congruence|reflexivity].
  - exists []. auto.
Qed.

Lemma trim_split s :
  exists w1 w2,
    s = w1 ++ trim s ++ w2 /\
    forallb isWhiteSpace w1 = true /\ forallb isWhiteSpace w2 = true.
Proof.
  unfold trim.
  destruct (dropWhile_split isWhiteSpace s) as (w1 & Hs & Hw1).
  destruct (dropWhile_split isWhiteSpace (rev (dropWhile isWhiteSpace s)))
    as (w2 & Hr & Hw2).
  exists w1, (rev w2). repeat split; auto.
  - rewrite <- rev_app_distr, <- Hr, rev_involutive. exact Hs.
  - rewrite forallb_forall in *. intros x Hx. apply Hw2.
    now apply in_rev.
Qed.

Lemma reassembles_after_space w text bodies :
  forallb isWhiteSpace w = true ->
  reassembles text bodies -> reassembles (w ++ text) bodies.
Proof.
  intros Hw H. destruct H as [ws Hws|ws body rest bodies Hws Hrest].
  - constructor. now rewrite forallb_app, Hw, Hws.
  - rewrite app_assoc. constructor; auto.
    now rewrite forallb_app, Hw, Hws.
Qed.

Lemma reassembles_before_space w text bodies :
  forallb isWhiteSpace w = true ->
  reassembles text bodies -> reassembles (text ++ w) bodies.
Proof.
  intros Hw H. induction H as [ws Hws|ws body rest bodies Hws Hrest IH].
  - constructor. now rewrite forallb_app, Hw, Hws.
  - rewrite <- !app_assoc. constructor; auto.
Qed.

(** The loop: what it appends to [chunks] renders bodies that reassemble
    [remaining], each of them no longer than [maxLength]. *)
Lemma splitLoop_bodies message maxLength fuel :
  0 < maxLength ->
  forall remaining chunks out,
    splitLoop fuel message maxLength remaining chunks = Some out ->
    exists rendered bodies,
      out = chunks ++ rendered /\
      Forall2 rendersAs rendered bodies /\
      reassembles remaining bodies /\
      Forall (fun b => length b <= maxLength) bodies.
Proof.
  intros Hpos. induction fuel as [|fuel IH]; intros remaining chunks out;
    [discriminate|].
  cbn [splitLoop].
  destruct (Nat.eqb_spec (length remaining) 0) as [Hempty|Hne].
  { intros [= <-]. exists [], []. rewrite app_nil_r.
    repeat split; auto. constructor.
    destruct remaining; [reflexivity|discriminate]. }
  destruct (Nat.leb_spec (length remaining) maxLength) as [Hfits|Hlong].
  { intros [= <-]. exists [remaining], [remaining].
    repeat split; auto.
    - constructor; [now left|constructor].
    - rewrite <- (app_nil_r remaining) at 1.
      apply (@reassembles_body [] remaining [] []); auto.
      now constructor. }
  pose proof (splitIndex_bounds remaining Hpos Hlong) as Hsi.
  set (si := splitIndex remaining maxLength) in *.
  set (body := trim (substring 0 si remaining)).
  intros Hrun. apply IH in Hrun.
  destruct Hrun as (rendered & bodies & Hout & Hrender & Hre & Hlen).
  assert (exists chunk, rendersAs chunk body /\
            out = chunks ++ chunk :: rendered) as (chunk & Hchunk & Hout').
  { destruct (moreThanOne _).
    - eexists. split; [right; eauto|]. now rewrite Hout, <- app_assoc.
    - eexists. split; [now left|]. now rewrite Hout, <- app_assoc. }
  exists (chunk :: rendered), (body :: bodies).
  split; [exact Hout'|]. split; [constructor; auto|]. split.
  - rewrite <- (firstn_skipn si remaining).
    destruct (trim_split (substring 0 si remaining)) as (w1 & w2 & H1 & ? & ?).
    destruct (trim_split (substringFrom si remaining))
      as (w3 & w4 & H2 & ? & ?).
    rewrite substring_prefix in H1. unfold substringFrom in *.
    rewrite H1, H2. unfold body. rewrite substring_prefix.
    rewrite <- !app_assoc.
    constructor; auto.
    apply reassembles_after_space; auto.
    apply reassembles_after_space; auto.
    apply reassembles_before_space; auto.
  - constructor; auto. unfold body.
    etransitivity; [apply trim_length|].
    rewrite substring_prefix, length_firstn. lia.
Qed.

(** X4: the bodies behind the chunks of [splitMessage], for a message longer
    than [maxLength]: put together they are the message, up to the white
    space trimmed where it was cut, and each is at most [maxLength] long. *)
Theorem splitMessage_bodies text maxLength chunks :
  0 < maxLength -> maxLength < length text ->
  splitMessage (VString text) maxLength = Some chunks ->
  exists bodies,
    Forall2 rendersAs chunks bodies /\
    reassembles text bodies /\
    Forall (fun b => length b <= maxLength) bodies.
Proof.
  intros Hpos Hlong. unfold splitMessage.
  destruct text as [|c text]; [simpl in Hlong; lia|].
  cbn [truthy isString length Nat.eqb negb orb].
  replace (S (length text) <=? maxLength) with false
    by (symmetry; apply Nat.leb_gt; exact Hlong).
  intros Hrun. apply splitLoop_bodies in Hrun; auto.
  destruct Hrun as (rendered & bodies & -> & H). eauto.
Qed.

End BodiesOfChunks.

(** ** Where the loop cuts *)

Lemma run_spec cls s k :
  k <= length s ->
  (forall j d, j < k -> nth_error s j = Some d -> cls d = true) ->
  (forall d, nth_error s k = Some d -> cls d = false) ->
  run cls s = k.
Proof.
  revert k. induction s as [|c s IH]; intros k Hk Hin Hout; simpl in *.
  - lia.
  - destruct k as [|k].
    + now rewrite (Hout c eq_refl).
    + rewrite (Hin 0 c); [|lia|reflexivity]. f_equal.
      apply IH; [lia| |exact Hout].
      intros j d Hj. apply (Hin (S j)). lia.
Qed.

Lemma run_prefix cls s j d :
  j < run cls s -> nth_error s j = Some d -> cls d = true.
Proof.
  revert j. induction s as [|c s IH]; intros j Hj Hd; simpl in *; [lia|].
  destruct (cls c) eqn:E; [|lia].
  destruct j as [|j]; simpl in Hd; [congruence|].
  apply (IH j); [lia|assumption].
Qed.

Lemma skipn_at (s : str) p c :
  nth_error s p = Some c -> skipn p s = c :: skipn (S p) s.
Proof.
  revert p. induction s as [|d s IH]; intros [|p] H; simpl in *;
    try discriminate.
  - congruence.
  - now apply IH.
Qed.

Lemma boundary_matches chunk p q :
  Boundary.startsAt chunk p -> Boundary.endsAt chunk p q ->
  match_here sentenceEndPattern (skipn p chunk) = Some (q - p).
Proof.
  intros (c & d & Hc & Hd & Hkind & Hcont) (c' & Hc' & Hq & Hin & Hout).
  assert (c' = c) by congruence. subst c'.
  rewrite (skipn_at _ _ Hc), sentenceEnd_here.
  assert (isSentenceEnd c || isChar LF c = true) as ->.
  { destruct Hkind as [->| ->]; reflexivity. }
  assert (run (Boundary.continues c) (skipn (S p) chunk) = q - S p) as ->.
  { apply run_spec.
    - rewrite length_skipn. lia.
    - intros j e Hj He. rewrite nth_error_skipn in He.
      apply (Hin (S p + j)); [lia|assumption].
    - intros e He. rewrite nth_error_skipn in He.
      apply Hout. replace q with (S p + (q - S p)) by lia. assumption. }
  destruct (q - S p) eqn:E; [lia|]. simpl. f_equal. lia.
Qed.

Lemma match_is_boundary chunk p n :
  match_here sentenceEndPattern (skipn p chunk) = Some n ->
  Boundary.startsAt chunk p.
Proof.
  rewrite sentenceEnd_here.
  destruct (skipn p chunk) as [|c s] eqn:E; [discriminate|].
  destruct (isSentenceEnd c || isChar LF c) eqn:Hkind; [|discriminate].
  destruct (run (Boundary.continues c) s) eqn:Hrun; [discriminate|].
  intros _.
  assert (nth_error chunk p = Some c) as Hc.
  { rewrite <- (Nat.add_0_r p), <- nth_error_skipn, E. reflexivity. }
  assert (s = skipn (S p) chunk) as Hs.
  { rewrite (skipn_at _ _ Hc) in E. congruence. }
  destruct s as [|d s']; [discriminate|].
  exists c, d. repeat split; auto.
  - rewrite <- (Nat.add_0_r (S p)), <- nth_error_skipn, <- Hs. reflexivity.
  - apply orb_true_iff in Hkind. destruct Hkind as [H|H]; auto.
    right. unfold isChar in H. now apply N.eqb_eq in H.
  - apply (@run_prefix _ (d :: s') 0); [lia|reflexivity].
Qed.

Lemma lastIndexOf_absent x s :
  (forall i, nth_error s i <> Some x) -> lastIndexOf x s = (-1)%Z.
Proof.
  induction s as [|c s IH]; intros H; simpl; auto.
  rewrite IH by (intros i; apply (H (S i))). simpl.
  destruct (N.eqb_spec c x); auto.
  subst. now destruct (H 0).
Qed.

Lemma lastIndexOf_last x s i :
  nth_error s i = Some x -> (forall j, i < j -> nth_error s j <> Some x) ->
  lastIndexOf x s = Z.of_nat i.
Proof.
  revert i. induction s as [|c s IH]; intros [|i] Hi Hlater; simpl in Hi;
    try discriminate.
  - injection Hi as ->. cbn [lastIndexOf].
    rewrite lastIndexOf_absent by (intros j; apply (Hlater (S j)); lia).
    simpl. now rewrite N.eqb_refl.
  - cbn [lastIndexOf].
    rewrite (IH i Hi) by (intros j Hj; apply (Hlater (S j)); lia).
    destruct (Z.leb_spec 0 (Z.of_nat i)); lia.
Qed.

(** C4 (as stated) fails: with two sentence ends in the window the loop
    cuts after the first one, the specification's wording after the last. *)
Lemma splitIndex_not_latest_boundary :
  10 < length (lit "ab. cd. efghijk") /\
  splitIndex (lit "ab. cd. efghijk") 10 = 4 /\
  Claimed.cutPoint (lit "ab. cd. efghijk") 10 = 8.
Proof. vm_compute. repeat split; lia. Qed.

(** C4 (amended): in an iteration on a [remaining] longer than [maxLength]
    the cut is just after the first sentence boundary that starts within
    the last 200 characters of the prefix, the boundary taken with all the
    white space (or line feeds) that continues it inside the prefix; if no
    boundary starts there, the cut is just after the last line feed of the
    prefix when its index is greater than 80% of [maxLength], and at
    [maxLength] when its index is smaller or there is no line feed. *)
Theorem splitIndex_cut remaining maxLength :
  maxLength < length remaining ->
  let chunk := firstn maxLength remaining in
  let from := maxLength - Nat.min 200 maxLength in
  (forall p q,
      from <= p -> Boundary.startsAt chunk p ->
      (forall p', from <= p' < p -> ~ Boundary.startsAt chunk p') ->
      Boundary.endsAt chunk p q ->
      splitIndex remaining maxLength = q)
  /\
  ((forall p, from <= p -> ~ Boundary.startsAt chunk p) ->
   (forall i, Boundary.lastLineBreak chunk i -> 4 * maxLength < 5 * i ->
              splitIndex remaining maxLength = i + 1)
   /\
   (forall i, Boundary.lastLineBreak chunk i -> 5 * i < 4 * maxLength ->
              splitIndex remaining maxLength = maxLength)
   /\
   ((forall i, nth_error chunk i <> Some LF) ->
    splitIndex remaining maxLength = maxLength)).
Proof.
  intros Hlong chunk from.
  assert (length chunk = maxLength) as Hlen
    by (unfold chunk; rewrite length_firstn; lia).
  unfold splitIndex. rewrite substring_prefix. fold chunk.
  rewrite Hlen. fold from. unfold substringFrom.
  split.
  - intros p q Hp Hstart Hfirst Hend.
    pose proof (boundary_matches Hstart Hend) as Hm.
    assert (p + 2 <= q) as Hq by (destruct Hend as (? & _ & ? & _); lia).
    destruct (exec sentenceEndPattern (skipn from chunk)) as [[i n]|] eqn:E.
    + apply exec_Some in E. destruct E as (Hi & _ & Hbefore).
      rewrite skipn_skipn in Hi.
      destruct (Nat.lt_trichotomy (i + from) p) as [Hlt|[Heq|Hgt]].
      * exfalso. apply (Hfirst (i + from)); [lia|].
        eapply match_is_boundary; eauto.
      * subst p. rewrite Hi in Hm. injection Hm as ->. lia.
      * exfalso. specialize (Hbefore (p - from)).
        rewrite skipn_skipn in Hbefore.
        replace (p - from + from) with p in Hbefore by lia.
        rewrite Hbefore in Hm by lia. discriminate.
    + exfalso. apply exec_None with (j := p - from) in E.
      * rewrite skipn_skipn in E.
        replace (p - from + from) with p in E by lia. congruence.
      * rewrite length_skipn.
        destruct Hend as (? & _ & ? & _). lia.
  - intros Hnone.
    destruct (exec sentenceEndPattern (skipn from chunk)) as [[i n]|] eqn:E.
    { exfalso. apply exec_Some in E. destruct E as (Hi & _ & _).
      rewrite skipn_skipn in Hi.
      apply (Hnone (i + from)); [lia|].
      eapply match_is_boundary; eauto. }
    repeat split.
    + intros i [Hi Hlater] Hfar.
      rewrite (lastIndexOf_last _ Hi Hlater).
      destruct (Z.ltb_spec (4 * Z.of_nat maxLength) (5 * Z.of_nat i)); lia.
    + intros i [Hi Hlater] Hnear.
      rewrite (lastIndexOf_last _ Hi Hlater).
      destruct (Z.ltb_spec (4 * Z.of_nat maxLength) (5 * Z.of_nat i)); lia.
    + intros Habsent. rewrite (lastIndexOf_absent _ Habsent).
      destruct (Z.ltb_spec (4 * Z.of_nat maxLength) (5 * -1)); lia.
Qed.

(** [splitIndex_cut] at a text with two sentence ends (first part) and at
    a text whose only break is a line feed at index 17 of 20 (second
    part). *)
Lemma splitIndex_cut_witness :
  splitIndex (lit "ab. cd. efghijk") 10 = 4 /\
  splitIndex (lit "abcdefghijklmnopq" ++ [LF] ++ lit "rstuvwxyz") 20 = 17 + 1.
Proof.
  split.
  - destruct (@splitIndex_cut (lit "ab. cd. efghijk") 10) as [H _];
      [simpl; lia|].
    apply (H 2 4).
    + simpl; lia.
    + exists 46%N, 32%N. repeat split; auto.
    + intros p' Hp' (c & d & Hc & _ & Hkind & _).
      assert (p' = 0 \/ p' = 1) as Hcases by lia.
      destruct Hcases as [-> | ->];
        cbv in Hc; injection Hc as <-; destruct Hkind; discriminate.
    + exists 46%N. repeat split; try (cbv; lia).
      * intros j d Hj Hd. assert (j = 3) as -> by lia.
        cbv in Hd. injection Hd as <-. reflexivity.
      * intros d Hd. cbv in Hd. injection Hd as <-. reflexivity.
  - destruct (@splitIndex_cut
                (lit "abcdefghijklmnopq" ++ [LF] ++ lit "rstuvwxyz") 20)
      as [_ H]; [simpl; lia|].
    destruct H as (H & _).
    + intros p _ (c & d & Hc & Hd & Hkind & Hcont).
      do 20 (destruct p as [|p];
             [cbv in Hc, Hd; try discriminate;
              injection Hc as <-; injection Hd as <-;
              destruct Hkind; try discriminate; cbv in Hcont; discriminate|]).
      destruct p; discriminate.
    + apply (H 17); [|lia]. split; [reflexivity|].
      intros j Hj.
      assert (j = 18 \/ j = 19 \/ 20 <= j) as Hcases by lia.
      destruct Hcases as [->|[->|Hj']]; try discriminate.
      intros Hc. assert (nth_error
        (firstn 20 (lit "abcdefghijklmnopq" ++ [LF] ++ lit "rstuvwxyz")) j
        <> None) as Hn by congruence.
      apply nth_error_Some in Hn. cbv in Hn. lia.
Defined.

(** ** Re-heading the chunks *)

Lemma match_many_run cls k (ds rest : str) n :
  ds <> [] -> forallb cls ds = true ->
  match rest with [] => True | d :: _ => cls d = false end ->
  k rest = Some n ->
  match_many cls k (ds ++ rest) = Some (length ds + n).
Proof.
  intros Hne Hds Hrest Hk. induction ds as [|c ds IH]; [congruence|].
  simpl in Hds. apply andb_true_iff in Hds. destruct Hds as [Hc Hds].
  cbn [app match_many length]. rewrite Hc.
  destruct ds as [|c' ds].
  - cbn [app]. replace (match_many cls k rest) with (@None nat).
    + now rewrite Hk.
    + destruct rest as [|d rest]; cbn [match_many]; auto. now rewrite Hrest.
  - rewrite IH; auto. discriminate.
Qed.

Lemma indicator_here number total body :
  match_here indicatorPattern (withIndicator number (Some total) body)
  = Some (indicatorLength number total).
Proof.
  unfold indicatorLength, indicatorPattern, match_here, withIndicator,
    showCount.
  change (lit "[") with [91%N]. change (lit "/") with [47%N].
  change (lit "]") with [93%N].
  cbn [app match_seq isChar N.eqb Pos.eqb option_map].
  rewrite match_many_run with (n := S (length (numToString total) + 3)).
  - cbn [option_map]. f_equal. cbn [length].
    rewrite length_app. cbn [length]. rewrite length_app. cbn [length]. lia.
  - apply numToString_nonempty.
  - apply numToString_digits.
  - reflexivity.
  - cbn [match_seq isChar N.eqb Pos.eqb option_map].
    rewrite match_many_run with (n := 3); auto.
    + apply numToString_nonempty.
    + apply numToString_digits.
Qed.

Lemma withIndicator_body number total body :
  withIndicator number total body = withIndicator number total [] ++ body.
Proof.
  unfold withIndicator. rewrite <- !app_assoc. reflexivity.
Qed.

Lemma removeAtStart_indicator number total body :
  removeAtStart indicatorPattern (withIndicator number (Some total) body)
  = body.
Proof.
  unfold removeAtStart. rewrite indicator_here.
  rewrite withIndicator_body. unfold indicatorLength.
  rewrite skipn_app, skipn_all, Nat.sub_diag. reflexivity.
Qed.

Lemma addIndicators_nth total index chunks k :
  nth_error (addIndicators total index chunks) k
  = option_map
      (fun c => withPart (index + k + 1) total
                  (removeAtStart indicatorPattern c))
      (nth_error chunks k).
Proof.
  revert index k. induction chunks as [|c chunks IH]; intros index [|k];
    cbn [addIndicators nth_error option_map]; auto.
  - now rewrite Nat.add_0_r.
  - rewrite IH. destruct (nth_error chunks k); cbn [option_map]; auto.
    do 2 f_equal. lia.
Qed.

Lemma addIndicators_length total index chunks :
  length (addIndicators total index chunks) = length chunks.
Proof.
  revert index. induction chunks as [|c chunks IH]; intros index;
    cbn [addIndicators length]; auto.
Qed.

(** X5: when more than one chunk is returned, chunk [k] (counted from 0) starts
    with the header [[Part k+1/N]] where [N] is the number of chunks
    returned. *)
Theorem splitMessageWithIndicators_headers message out k c :
  splitMessageWithIndicators message = Some out ->
  1 < length out ->
  nth_error out k = Some c ->
  exists body, c = withPart (k + 1) (length out) body.
Proof.
  unfold splitMessageWithIndicators.
  destruct (splitMessage message WHATSAPP_MESSAGE_MAX_LENGTH)
    as [chunks|]; [|discriminate].
  destruct (Nat.leb_spec (length chunks) 1) as [Hle|Hgt]; intros [= <-].
  - lia.
  - rewrite addIndicators_length, addIndicators_nth. intros _ Hk.
    destruct (nth_error chunks k) as [chunk|]; [|discriminate].
    injection Hk as <-. eauto.
Qed.

(** The last chunk of [splitMessage] never got an indicator, yet the
    pattern is applied to it too: text of the message that looks like one is
    removed. *)
Example own_text_removed :
  splitMessageWithIndicators
    (VString (repeat 97%N 4000 ++ lit ". "
              ++ withIndicator 3 (Some 4) (repeat 98%N 200)))
  = Some [withPart 1 2 (repeat 97%N 4000 ++ lit ".");
          withPart 2 2 (repeat 98%N 200)].
Proof. vm_compute. reflexivity. Qed.

(** C5 (as stated) fails: a text that already starts with a header, of
    either form, is emitted with a second header in front of it. *)
Lemma splitMessageWithIndicators_two_headers :
  (exists c rest,
      splitMessageWithIndicators
        (VString (withPart 1 2 (repeat 97%N 5000))) = Some (c :: rest) /\
      firstn 24 c = withPart 1 2 (withPart 1 2 []) /\
      Claimed.carriesTwoHeaders c = true)
  /\
  (exists c rest,
      splitMessageWithIndicators
        (VString (withIndicator 1 (Some 2) (repeat 97%N 5000)))
      = Some (c :: rest) /\
      firstn 19 c = withPart 1 2 (withIndicator 1 (Some 2) []) /\
      Claimed.carriesTwoHeaders c = true).
Proof.
  split; eexists; eexists; (split; [vm_compute; reflexivity|]);
    split; vm_compute; reflexivity.
Qed.

(** C5 (amended): when [splitMessageWithIndicators] re-heads the chunks of
    [splitMessage] (more than one), a chunk that starts with an [[i/N]]
    indicator and two line feeds has that leading indicator removed before
    the [[Part k/M]] header is put there: the chunk is emitted as the new
    header, for its position [k] among the [M] chunks, followed by what came
    after the indicator. The indicator is the one [splitMessage] put in
    front of the chunk or, in the last chunk, text of the message that has
    this form. *)
Theorem splitMessageWithIndicators_replaces_indicator
  message chunks k number total body :
  splitMessage message WHATSAPP_MESSAGE_MAX_LENGTH = Some chunks ->
  1 < length chunks ->
  nth_error chunks k = Some (withIndicator number (Some total) body) ->
  exists out,
    splitMessageWithIndicators message = Some out /\
    nth_error out k = Some (withPart (k + 1) (length chunks) body).
Proof.
  intros Hsplit Hmany Hk. unfold splitMessageWithIndicators.
  rewrite Hsplit.
  destruct (Nat.leb_spec (length chunks) 1); [lia|].
  eexists. split; [reflexivity|].
  rewrite addIndicators_nth, Hk. cbn [option_map].
  now rewrite removeAtStart_indicator.
Qed.

(** [splitMessageWithIndicators_replaces_indicator] at 5000 letters, first
    chunk. *)
Lemma splitMessageWithIndicators_replaces_indicator_witness :
  exists out,
    splitMessageWithIndicators (VString (repeat 97%N 5000)) = Some out /\
    nth_error out 0 = Some (withPart 1 2 (repeat 97%N 4096)).
Proof.
  apply (@splitMessageWithIndicators_replaces_indicator
           (VString (repeat 97%N 5000))
           [withIndicator 1 (Some 2) (repeat 97%N 4096); repeat 97%N 904]
           0 1 2 (repeat 97%N 4096)).
  - vm_compute. reflexivity.
  - simpl. lia.
  - reflexivity.
Defined.

(** ** The sender *)

Section SenderProperties.
Import Sender Traces.

Variable E : env.
Variable network : Network.

(** A message passes [validateMessageLength] exactly when it is a non-empty
    string of at most 4096 code units. *)
Lemma validateMessageLength_Ok message :
  validateMessageLength message = Ok tt <->
  exists s, message = VString s /\
            1 <= length s <= WHATSAPP_MESSAGE_MAX_LENGTH.
Proof.
  unfold validateMessageLength, WHATSAPP_MESSAGE_MAX_LENGTH. split.
  - destruct message as [| |b|z|s|]; cbn [truthy isString];
      try (destruct b); try (destruct (z =? 0)%Z); cbn [negb orb];
      try discriminate.
    destruct s as [|c s]; [discriminate|]. cbn [length Nat.eqb negb orb].
    destruct (_ <? _) eqn:L; [discriminate|]. apply Nat.ltb_ge in L.
    intros _. exists (c :: s). cbn [length]. split; [reflexivity|lia].
  - intros (s & -> & Hlen). destruct s as [|c s]; [simpl in Hlen; lia|].
    cbn [truthy isString length Nat.eqb negb orb] in *.
    destruct (_ <? _) eqn:L; auto. apply Nat.ltb_lt in L. lia.
Qed.

(** One call of [sendTextMessage]: either it throws and the trace is
    untouched (no credentials, or the message fails validation), or the
    message is valid and exactly one request for it is issued. *)
Lemma sendTextMessage_cases to message t :
  (exists e, sendTextMessage E network to message t = (Throw e, t) /\
             (credentials E = false \/ validateMessageLength message = Throw e))
  \/
  (exists r, sendTextMessage E network to message t
             = (r, t ++ [Fetch (WhatsAppSend to message)]) /\
             credentials E = true /\ validateMessageLength message = Ok tt /\
             (r = Ok tt <->
              exists resp, network t (WhatsAppSend to message) (sendPolicy E)
                           = Ok resp /\ ok resp = true /\ body resp <> None)).
Proof.
  unfold sendTextMessage, credentials.
  destruct (configured (WHATSAPP_TOKEN E)); simpl;
    [|left; eexists; split; [reflexivity|auto]].
  destruct (configured (PHONE_NUMBER_ID E)); simpl;
    [|left; eexists; split; [reflexivity|auto]].
  unfold bind at 1, lift.
  destruct (validateMessageLength message) as [[]|e] eqn:V;
    [|left; eexists; split; [reflexivity|auto]].
  right. unfold tryCatch, bind, fetchWithRetry, throw, responseJson, ret.
  destruct (network t (WhatsAppSend to message) (sendPolicy E)) as [resp|e].
  - destruct (ok resp) eqn:Hok; simpl.
    + destruct (body resp) as [data|] eqn:Hbody.
      * eexists. repeat split; auto. intros _. exists resp.
        repeat split; auto. congruence.
      * eexists. repeat split; auto; try discriminate.
        intros (resp' & [= <-] & _ & Hb). congruence.
    + eexists. repeat split; auto; try discriminate.
      intros (resp' & [= <-] & Ho & _). congruence.
  - eexists. repeat split; auto; try discriminate.
    intros (resp' & [=] & _).
Qed.

Lemma at_index_app pre c rest :
  at_index (pre ++ c :: rest) (length pre) = VString c.
Proof.
  unfold at_index. rewrite nth_error_app2, Nat.sub_diag by lia. reflexivity.
Qed.

Lemma sentInOrder_cons to c d rest :
  sentInOrder to (c :: d :: rest)
  = [sent to c; Sleep DELAY_BETWEEN_CHUNKS_MS] ++ sentInOrder to (d :: rest).
Proof. reflexivity. Qed.

(** The loop over the chunks [rest] that follow [pre]: it stops at the first
    chunk whose send throws; until then every chunk is sent in order and
    followed by the delay, except the last one. *)
Lemma sendChunksFrom_spec to rest :
  forall pre t,
  exists r emitted,
    sendChunksFrom E network to (pre ++ rest) (length pre) (length rest) t
    = (r, t ++ emitted) /\
    Forall withinLimit emitted /\
    match r with
    | Ok _ => emitted = sentInOrder to rest
    | Throw e =>
        exists k c,
          nth_error rest k = Some c /\
          sendTextMessage E network to (VString c)
            (t ++ sentWithDelay to (firstn k rest)) = (Throw e, t ++ emitted) /\
          (emitted = sentWithDelay to (firstn k rest) \/
           emitted = sentWithDelay to (firstn k rest) ++ [sent to c])
    end.
Proof.
  induction rest as [|c rest IH]; intros pre t.
  - exists (Ok tt), []. cbn. rewrite app_nil_r. auto.
  - cbn [length sendChunksFrom]. unfold bind at 1.
    rewrite at_index_app.
    destruct (sendTextMessage_cases to (VString c) t)
      as [(e & Hsend & _)|(r & Hsend & _ & Hvalid & _)].
    + (* the send throws before any request *)
      rewrite Hsend. exists (Throw e), []. rewrite app_nil_r.
      repeat split; auto. exists 0, c. cbn. rewrite !app_nil_r. auto.
    + rewrite Hsend.
      assert (withinLimit (sent to c)) as Hc.
      { apply validateMessageLength_Ok in Hvalid.
        destruct Hvalid as (s & [= <-] & Hlen). exact Hlen. }
      destruct r as [[]|e].
      2:{ (* the request fails *)
          exists (Throw e), [sent to c]. repeat split; auto.
          exists 0, c. cbn. rewrite !app_nil_r. auto. }
      unfold bind at 1.
      destruct rest as [|d rest].
      * (* the last chunk: no delay *)
        rewrite length_app. cbn [length].
        replace (length pre <? length pre + 1 - 1) with false
          by (symmetry; apply Nat.ltb_ge; lia).
        cbn. exists (Ok tt), [sent to c]. auto.
      * rewrite length_app. cbn [length].
        replace (length pre <? length pre + S (S (length rest)) - 1) with true
          by (symmetry; apply Nat.ltb_lt; lia).
        unfold sleep at 1.
        specialize (IH (pre ++ [c])
                      ((t ++ [Fetch (WhatsAppSend to (VString c))])
                         ++ [Sleep DELAY_BETWEEN_CHUNKS_MS])).
        rewrite <- app_assoc in IH. cbn [app] in IH.
        rewrite length_app in IH. cbn [length] in IH.
        rewrite Nat.add_1_r in IH.
        destruct IH as (r & emitted & Hrun & Hlim & Hshape).
        cbn [length]. rewrite Hrun.
        exists r, ([sent to c; Sleep DELAY_BETWEEN_CHUNKS_MS] ++ emitted).
        split; [now rewrite <- !app_assoc|].
        split; [constructor; [exact Hc|constructor; [exact I|exact Hlim]]|].
        destruct r as [[]|e].
        -- rewrite Hshape. reflexivity.
        -- destruct Hshape as (k & c' & Hk & Hfail & Hem).
           exists (S k), c'. split; [exact Hk|].
           cbn [firstn sentWithDelay flat_map].
           fold (sentWithDelay to (firstn k (d :: rest))).
           rewrite <- !app_assoc in *. cbn [app] in *.
           split; [exact Hfail|].
           destruct Hem as [-> | ->]; auto.
Qed.

(** The same loop, send by send: it returns normally only when every chunk's
    send did, each one issued after the sends and delays of the chunks
    before it; when it throws, the chunk whose send threw is the first one
    that did. *)
Lemma sendChunksFrom_first_failure to rest :
  forall pre t,
  exists r emitted,
    sendChunksFrom E network to (pre ++ rest) (length pre) (length rest) t
    = (r, t ++ emitted) /\
    match r with
    | Ok _ =>
        emitted = sentInOrder to rest /\
        forall k c,
          nth_error rest k = Some c ->
          fst (sendTextMessage E network to (VString c)
                 (t ++ sentWithDelay to (firstn k rest))) = Ok tt
    | Throw e =>
        exists k c,
          nth_error rest k = Some c /\
          sendTextMessage E network to (VString c)
            (t ++ sentWithDelay to (firstn k rest)) = (Throw e, t ++ emitted) /\
          (emitted = sentWithDelay to (firstn k rest) \/
           emitted = sentWithDelay to (firstn k rest) ++ [sent to c]) /\
          forall j d,
            j < k -> nth_error rest j = Some d ->
            fst (sendTextMessage E network to (VString d)
                   (t ++ sentWithDelay to (firstn j rest))) = Ok tt
    end.
Proof.
  induction rest as [|c rest IH]; intros pre t.
  - exists (Ok tt), []. cbn. rewrite app_nil_r.
    repeat split. intros [|k] c' [=].
  - cbn [length sendChunksFrom]. unfold bind at 1.
    rewrite at_index_app.
    destruct (sendTextMessage E network to (VString c) t) as [[[]|e] t1]
      eqn:Hsend.
    2:{ (* this send throws *)
        destruct (sendTextMessage_cases to (VString c) t)
          as [(e' & Hcase & _)|(r' & Hcase & _)];
          rewrite Hsend in Hcase; injection Hcase as <- ->.
        - exists (Throw e), []. rewrite app_nil_r. split; [reflexivity|].
          exists 0, c. cbn. rewrite !app_nil_r.
          repeat split; auto. intros j d Hj. lia.
        - exists (Throw e), [sent to c]. split; [reflexivity|].
          exists 0, c. cbn. rewrite !app_nil_r.
          repeat split; auto. intros j d Hj. lia. }
    assert (t1 = t ++ [sent to c]) as ->.
    { destruct (sendTextMessage_cases to (VString c) t)
        as [(e' & Hcase & _)|(r' & Hcase & _)];
        rewrite Hsend in Hcase; [discriminate|].
      now injection Hcase as _ ->. }
    unfold bind at 1.
    destruct rest as [|d rest].
    + (* the last chunk: no delay *)
      rewrite length_app. cbn [length].
      replace (length pre <? length pre + 1 - 1) with false
        by (symmetry; apply Nat.ltb_ge; lia).
      cbn. exists (Ok tt), [sent to c]. repeat split.
      intros [|k] c' Hk; [|destruct k; discriminate].
      injection Hk as <-. cbn. rewrite app_nil_r. now rewrite Hsend.
    + rewrite length_app. cbn [length].
      replace (length pre <? length pre + S (S (length rest)) - 1) with true
        by (symmetry; apply Nat.ltb_lt; lia).
      unfold sleep at 1.
      specialize (IH (pre ++ [c])
                    ((t ++ [sent to c]) ++ [Sleep DELAY_BETWEEN_CHUNKS_MS])).
      rewrite <- app_assoc in IH. cbn [app] in IH.
      rewrite length_app in IH. cbn [length] in IH.
      rewrite Nat.add_1_r in IH.
      destruct IH as (r & emitted & Hrun & Hshape).
      cbn [length]. rewrite Hrun.
      exists r, ([sent to c; Sleep DELAY_BETWEEN_CHUNKS_MS] ++ emitted).
      split; [now rewrite <- !app_assoc|].
      assert (forall k,
                 (t ++ [sent to c]) ++ [Sleep DELAY_BETWEEN_CHUNKS_MS]
                   ++ sentWithDelay to (firstn k (d :: rest))
                 = t ++ sentWithDelay to (firstn (S k) (c :: d :: rest)))
        as Hbefore.
      { intros k. now rewrite <- app_assoc. }
      destruct r as [[]|e].
      * destruct Hshape as [-> Hall]. split; [reflexivity|].
        intros [|k] c' Hk.
        -- injection Hk as <-. cbn. rewrite app_nil_r. now rewrite Hsend.
        -- rewrite <- Hbefore, app_assoc. now apply Hall.
      * destruct Hshape as (k & c' & Hk & Hfail & Hem & Hfirst).
        exists (S k), c'. split; [exact Hk|].
        rewrite <- Hbefore.
        split; [|split].
        -- rewrite app_assoc, Hfail. now rewrite <- !app_assoc.
        -- cbn [firstn sentWithDelay flat_map].
           fold (sentWithDelay to (firstn k (d :: rest))).
           rewrite <- !app_assoc. cbn [app].
           destruct Hem as [-> | ->]; auto.
        -- intros [|j] d' Hj Hd'.
           ++ injection Hd' as <-. cbn. rewrite app_nil_r. now rewrite Hsend.
           ++ rewrite <- Hbefore, app_assoc. apply Hfirst; [lia|exact Hd'].
Qed.

(** C6: with splitting enabled, a message longer than 4096 is split and its
    chunks are sent one after the other in their order with a 500 ms delay
    between two chunks and none after the last. The call returns normally
    exactly when the send of every chunk did; the first send that fails ends
    the run: the sends before it succeeded and stay sent, nothing follows
    it, and its error is the caller's. *)
Theorem sendTextMessageWithSplitting_sequential to message t :
  ENABLE_MESSAGE_SPLITTING E = true ->
  WHATSAPP_MESSAGE_MAX_LENGTH < length message ->
  exists chunks r t',
    splitMessageWithIndicators (VString message) = Some chunks /\
    sendTextMessageWithSplitting E network to message t = Some (r, t') /\
    (r = Ok tt <->
     forall k c,
       nth_error chunks k = Some c ->
       fst (sendTextMessage E network to (VString c)
              (t ++ sentWithDelay to (firstn k chunks))) = Ok tt) /\
    match r with
    | Ok _ => t' = t ++ sentInOrder to chunks
    | Throw e =>
        exists k c,
          nth_error chunks k = Some c /\
          let before := t ++ sentWithDelay to (firstn k chunks) in
          sendTextMessage E network to (VString c) before = (Throw e, t') /\
          (t' = before \/ t' = before ++ [sent to c]) /\
          forall j d,
            j < k -> nth_error chunks j = Some d ->
            fst (sendTextMessage E network to (VString d)
                   (t ++ sentWithDelay to (firstn j chunks))) = Ok tt
    end.
Proof.
  intros Hsplit Hlong.
  destruct (splitMessageWithIndicators_returns (VString message))
    as [chunks Hchunks].
  unfold sendTextMessageWithSplitting. rewrite Hsplit, Hchunks.
  replace (length message <=? WHATSAPP_MESSAGE_MAX_LENGTH) with false
    by (symmetry; apply Nat.leb_gt; exact Hlong).
  cbn [negb orb].
  destruct (sendChunksFrom_first_failure to chunks [] t)
    as (r & emitted & Hrun & Hshape).
  cbn [app length] in Hrun.
  assert (sendTextMessage E network to (at_index chunks 0) t
          = sendChunksFrom E network to chunks 0 (length chunks) t
          \/ length chunks <> 1) as Hone.
  { destruct chunks as [|c [|d chunks]];
      [right; discriminate| left |right; discriminate].
    cbn [length sendChunksFrom]. unfold bind, at_index. cbn.
    destruct (sendTextMessage E network to (VString c) t) as [[[]|e] t1];
      reflexivity. }
  exists chunks, r, (t ++ emitted). split; [reflexivity|]. split; [|split].
  - destruct (Nat.eqb_spec (length chunks) 1) as [H1|H1].
    + destruct Hone as [->|]; [|contradiction]. now rewrite Hrun.
    + now rewrite Hrun.
  - destruct r as [[]|e].
    + split; [intros _; apply Hshape|reflexivity].
    + destruct Hshape as (k & c & Hk & Hfail & _).
      split; [discriminate|]. intros Hall.
      specialize (Hall k c Hk). rewrite Hfail in Hall. discriminate.
  - destruct r as [[]|e]; [now rewrite (proj1 Hshape)|].
    destruct Hshape as (k & c & Hk & Hfail & Hem & Hfirst).
    exists k, c. split; [exact Hk|]. cbn zeta. split; [exact Hfail|].
    split; [|exact Hfirst].
    rewrite <- app_assoc. destruct Hem as [-> | ->]; auto.
Qed.

(** C10: a message that is not a non-empty string, or that is longer than
    4096, makes [sendTextMessage] throw with nothing requested; and whatever
    [sendTextMessageWithSplitting] does request carries a whole chunk,
    header included, that passed this guard. *)
Theorem sendTextMessage_guard :
  (forall to message t,
      (isString message = false \/ message = VString [] \/
       exists s, message = VString s /\
                 WHATSAPP_MESSAGE_MAX_LENGTH < length s) ->
      exists e, sendTextMessage E network to message t = (Throw e, t))
  /\
  (forall to message t,
      exists r emitted,
        sendTextMessageWithSplitting E network to message t
        = Some (r, t ++ emitted) /\
        Forall withinLimit emitted).
Proof.
  split.
  - intros to message t Hbad.
    destruct (sendTextMessage_cases to message t)
      as [(e & Hsend & _)|(r & _ & _ & Hvalid & _)]; [eauto|].
    exfalso. apply validateMessageLength_Ok in Hvalid.
    destruct Hvalid as (s & -> & Hlen).
    destruct Hbad as [H|[H|(s' & H & Hlong)]]; try discriminate;
      injection H as ->; simpl in Hlen; lia.
  - intros to message t. unfold sendTextMessageWithSplitting.
    assert (forall m, exists r emitted,
               sendTextMessage E network to m t = (r, t ++ emitted) /\
               Forall withinLimit emitted) as Hone.
    { intros m. destruct (sendTextMessage_cases to m t)
        as [(e & Hsend & _)|(r & Hsend & _ & Hvalid & _)].
      - exists (Throw e), []. rewrite app_nil_r. auto.
      - exists r, [Fetch (WhatsAppSend to m)]. split; [exact Hsend|].
        apply validateMessageLength_Ok in Hvalid.
        destruct Hvalid as (s & -> & Hlen).
        constructor; [exact Hlen|constructor]. }
    destruct (_ || _).
    + destruct (Hone (VString message)) as (r & emitted & -> & Hlim). eauto.
    + destruct (splitMessageWithIndicators_returns (VString message))
        as [chunks ->].
      destruct (length chunks =? 1).
      * destruct (Hone (at_index chunks 0)) as (r & emitted & -> & Hlim).
        eauto.
      * destruct (sendChunksFrom_spec to chunks [] t)
          as (r & emitted & Hrun & Hlim & _).
        cbn [app length] in Hrun. rewrite Hrun. eauto.
Qed.

(** C8: the retry predicate of the sender accepts exactly a response with
    status 429 or 5xx and an error named AbortError or with code
    ECONNREFUSED or ETIMEDOUT; a 4xx response other than 429 is refused, and
    when such a response comes back [sendTextMessage] throws at once. *)
Theorem whatsappShouldRetry_exactly :
  (forall error response,
      whatsappShouldRetry error response = true <->
      (exists e, error = Some e /\
                 (errorName e = "AbortError"%string \/
                  errorCode e = Some "ECONNREFUSED"%string \/
                  errorCode e = Some "ETIMEDOUT"%string))
      \/
      (error = None /\
       exists r, response = Some r /\
                 (status r = 429 \/ 500 <= status r < 600)))
  /\
  (forall r, 400 <= status r < 500 -> status r <> 429 ->
             whatsappShouldRetry None (Some r) = false)
  /\
  (forall to message t r,
      credentials E = true -> validateMessageLength message = Ok tt ->
      network t (WhatsAppSend to message) (sendPolicy E) = Ok r ->
      400 <= status r < 500 ->
      sendTextMessage E network to message t
      = (Throw (WhatsAppApiError (status r)),
         t ++ [Fetch (WhatsAppSend to message)])).
Proof.
  split; [|split].
  - intros error response. unfold whatsappShouldRetry.
    destruct error as [e|].
    + rewrite !orb_true_iff. split.
      * intros H. left. exists e. split; [reflexivity|].
        destruct H as [[H|H]|H].
        -- left. now apply String.eqb_eq.
        -- right; left. destruct (errorCode e); [|discriminate].
           f_equal. now apply String.eqb_eq.
        -- right; right. destruct (errorCode e); [|discriminate].
           f_equal. now apply String.eqb_eq.
      * intros [(e' & [= <-] & H)|[H _]]; [|discriminate].
        destruct H as [H|[H|H]].
        -- left; left. now apply String.eqb_eq.
        -- left; right. rewrite H. apply String.eqb_refl.
        -- right. rewrite H. apply String.eqb_refl.
    + destruct response as [r|].
      * rewrite orb_true_iff, andb_true_iff, Nat.eqb_eq, Nat.leb_le,
          Nat.ltb_lt.
        split.
        -- intros H. right. split; [reflexivity|]. exists r. split; auto.
        -- intros [(e & [=] & _)|(_ & r' & [= <-] & H)].
           destruct H; [left|right]; lia.
      * split; [discriminate|].
        intros [(e & [=] & _)|(_ & r' & [=] & _)].
  - intros r Hr H429. unfold whatsappShouldRetry.
    apply orb_false_iff. split.
    + now apply Nat.eqb_neq.
    + apply andb_false_iff. left. apply Nat.leb_gt. lia.
  - intros to message t r Hcred Hvalid Hnet Hr.
    unfold credentials in Hcred. apply andb_true_iff in Hcred.
    destruct Hcred as [Htok Hphone].
    unfold sendTextMessage. rewrite Htok, Hphone. cbn [negb orb].
    unfold bind at 1, lift. rewrite Hvalid.
    unfold tryCatch, bind, fetchWithRetry. rewrite Hnet.
    assert (ok r = false) as ->; [|reflexivity].
    unfold ok. apply andb_false_iff. right. apply Nat.leb_gt. lia.
Qed.

End SenderProperties.

(** ** The resilient call wrapper *)

Section WrapperProperties.
Import ResilientCall.

Variable defaultShouldRetry : option error -> option response -> bool.

Lemma attempts_all_fail policy operation :
  alwaysFails policy operation ->
  alwaysRetried defaultShouldRetry policy operation ->
  forall retriesLeft number,
    attempts defaultShouldRetry policy operation number retriesLeft
    = (propagate (underDeadline (Policy.timeoutMs policy)
                    (operation (number + retriesLeft))),
       retried (retryDelayMs policy) number retriesLeft).
Proof.
  intros Hfail Hretry.
  induction retriesLeft as [|n IH]; intros number; cbn [attempts retried];
    rewrite Hfail, Hretry.
  - now rewrite Nat.add_0_r.
  - rewrite IH. now rewrite Nat.add_succ_comm.
Qed.

Lemma invocations_retried delay number retries :
  invocations (retried delay number retries) = retries + 1.
Proof.
  revert number. induction retries as [|n IH]; intros number; auto.
  cbn [retried]. unfold invocations in *. cbn. now rewrite IH.
Qed.

Lemma last_retried delay number retries d :
  last (retried delay number retries) d = Attempt (number + retries).
Proof.
  revert number. induction retries as [|n IH]; intros number.
  - cbn. now rewrite Nat.add_0_r.
  - cbn [retried].
    assert (forall (l : list wevent) a, l <> [] -> last (a :: l) d = last l d)
      as Hlast by (intros [|b l] a H; [congruence|reflexivity]).
    rewrite !Hlast, IH; try discriminate.
    + now rewrite Nat.add_succ_comm.
    + destruct n; discriminate.
Qed.

(** C9 (amended): when every attempt fails and the policy's [shouldRetry]
    accepts each failure, the operation is invoked exactly [maxRetries + 1]
    times, with the retry delay between two attempts and none after the
    last, and the last failure is what the caller gets. *)
Theorem execute_attempts policy operation :
  alwaysFails policy operation ->
  alwaysRetried defaultShouldRetry policy operation ->
  let outcome := execute defaultShouldRetry operation policy in
  invocations (snd outcome) = maxRetries policy + 1 /\
  snd outcome = retried (retryDelayMs policy) 0 (maxRetries policy) /\
  last (snd outcome) (Wait 0) = Attempt (maxRetries policy) /\
  fst outcome = propagate (underDeadline (Policy.timeoutMs policy)
                         (operation (maxRetries policy))).
Proof.
  intros Hfail Hretry outcome. unfold outcome, execute.
  rewrite attempts_all_fail by assumption. cbn [fst snd].
  rewrite invocations_retried, last_retried. auto.
Qed.

End WrapperProperties.

(** ** The HaiIndexer client *)

Section ClientProperties.
Import HaiIndexer.

Variable E : env.
Variable network : Network.
Variable afterSuccess : nat -> nat.

Lemma atTime_OPEN cfg now b :
  Breaker.state (Breaker.atTime cfg now b) = Breaker.OPEN ->
  Breaker.atTime cfg now b = b.
Proof.
  unfold Breaker.atTime. destruct (Breaker.state b) eqn:S; auto.
  destruct (_ <=? _); auto. discriminate.
Qed.

(** Without a configured URL no call ever reaches the breaker. *)
Lemma reachable_unconfigured s :
  reachable E network afterSuccess s ->
  configured (HAIINDEXER_API_URL E) = false ->
  fst s = Breaker.initial.
Proof.
  intros Hreach Hurl. induction Hreach as [|q now s _ IH|s _ _]; auto.
  unfold queryHaiIndexer. now rewrite Hurl.
Qed.

(** C7: in every state the module can reach, a query made while the circuit
    breaker is OPEN returns the fallback answer; it does not throw, the
    protected operation is not invoked (the trace is unchanged) and the
    breaker stays as it is. *)
Theorem queryHaiIndexer_open_fallback normalizedQuery now s :
  reachable E network afterSuccess s ->
  Breaker.state (Breaker.atTime (CIRCUIT_BREAKER_CONFIG E) now (fst s))
  = Breaker.OPEN ->
  queryHaiIndexer E network afterSuccess normalizedQuery now s
  = (Ok {| answer := VString busyText |}, s).
Proof.
  intros Hreach Hopen. unfold queryHaiIndexer.
  destruct (configured (HAIINDEXER_API_URL E)) eqn:Hurl.
  - cbn [negb]. unfold Breaker.execute. destruct s as [b tr].
    cbn [fst] in Hopen. rewrite Hopen. cbn [Breaker.isOPEN].
    now rewrite (atTime_OPEN _ _ _ Hopen).
  - rewrite (reachable_unconfigured Hreach Hurl) in Hopen. discriminate.
Qed.

End ClientProperties.

(** ** The theorems at sample inputs *)

Section Samples.
Import Sender Traces ResilientCall HaiIndexer.

(** Two chunks, both within the limit, and a network that accepts: both are
    sent, in order, with one delay between them. *)
Example two_chunks_sent :
  sendTextMessageWithSplitting Sample.senderEnv Sample.accepts
    Sample.recipient Sample.twoSentences []
  = Some (Ok tt,
          [sent Sample.recipient
             (withPart 1 2 (repeat 97%N 4000 ++ lit "."));
           Sleep 500;
           sent Sample.recipient (withPart 2 2 (repeat 98%N 1000))]).
Proof. vm_compute. reflexivity. Qed.

(** The second send fails: the call throws, and the trace ends with the
    request that failed. *)
Example second_chunk_fails :
  sendTextMessageWithSplitting Sample.senderEnv Sample.acceptsOnce
    Sample.recipient Sample.twoSentences []
  = Some (Throw (WhatsAppApiError 500),
          [sent Sample.recipient
             (withPart 1 2 (repeat 97%N 4000 ++ lit "."));
           Sleep 500;
           sent Sample.recipient (withPart 2 2 (repeat 98%N 1000))]).
Proof. vm_compute. reflexivity. Qed.

(** 5000 letters: the first chunk is 4108 characters with its header, the
    guard of [sendTextMessage] throws and nothing is sent. *)
Example oversized_chunk_not_sent :
  sendTextMessageWithSplitting Sample.senderEnv Sample.accepts
    Sample.recipient (repeat 97%N 5000) []
  = Some (Throw (MessageTooLong 4108), []).
Proof. vm_compute. reflexivity. Qed.

(** [sendTextMessageWithSplitting_sequential] at the two-sentence message
    and a network that accepts one request. *)
Lemma sendTextMessageWithSplitting_sequential_witness :
  exists chunks r t',
    splitMessageWithIndicators (VString Sample.twoSentences) = Some chunks /\
    sendTextMessageWithSplitting Sample.senderEnv Sample.acceptsOnce
      Sample.recipient Sample.twoSentences [] = Some (r, t') /\
    (r = Ok tt <->
     forall k c,
       nth_error chunks k = Some c ->
       fst (sendTextMessage Sample.senderEnv Sample.acceptsOnce
              Sample.recipient (VString c)
              ([] ++ sentWithDelay Sample.recipient (firstn k chunks)))
       = Ok tt) /\
    match r with
    | Ok _ => t' = [] ++ sentInOrder Sample.recipient chunks
    | Throw e =>
        exists k c,
          nth_error chunks k = Some c /\
          let before :=
            [] ++ sentWithDelay Sample.recipient (firstn k chunks) in
          sendTextMessage Sample.senderEnv Sample.acceptsOnce
            Sample.recipient (VString c) before = (Throw e, t') /\
          (t' = before \/ t' = before ++ [sent Sample.recipient c]) /\
          forall j d,
            j < k -> nth_error chunks j = Some d ->
            fst (sendTextMessage Sample.senderEnv Sample.acceptsOnce
                   Sample.recipient (VString d)
                   ([] ++ sentWithDelay Sample.recipient (firstn j chunks)))
            = Ok tt
    end.
Proof.
  apply (@sendTextMessageWithSplitting_sequential
           Sample.senderEnv Sample.acceptsOnce Sample.recipient
           Sample.twoSentences []).
  - reflexivity.
  - vm_compute. lia.
Defined.

(** [sendTextMessage_guard] at the empty string and at a chunk of 4108
    characters. *)
Lemma sendTextMessage_guard_witness :
  (exists e, sendTextMessage Sample.senderEnv Sample.accepts
               Sample.recipient (VString []) [] = (Throw e, []))
  /\
  (exists e, sendTextMessage Sample.senderEnv Sample.accepts
               Sample.recipient
               (VString (withPart 1 2 (repeat 97%N 4096))) []
             = (Throw e, [])).
Proof.
  destruct (sendTextMessage_guard Sample.senderEnv Sample.accepts)
    as [Hguard _].
  split; apply Hguard.
  - right; left. reflexivity.
  - right; right. eexists. split; [reflexivity|]. vm_compute. lia.
Defined.

(** [whatsappShouldRetry_exactly] at the statuses 404 and 400. *)
Lemma whatsappShouldRetry_exactly_witness :
  whatsappShouldRetry None (Some {| status := 404; body := None |}) = false
  /\
  sendTextMessage Sample.senderEnv Sample.rejects Sample.recipient
    (VString (lit "Hi")) []
  = (Throw (WhatsAppApiError 400),
     [] ++ [Fetch (WhatsAppSend Sample.recipient (VString (lit "Hi")))]).
Proof.
  destruct (whatsappShouldRetry_exactly Sample.senderEnv Sample.rejects)
    as (_ & Hrefused & Hsurfaces).
  split.
  - apply Hrefused; simpl; lia.
  - apply (Hsurfaces Sample.recipient (VString (lit "Hi")) []
             {| status := 400; body := None |});
      try reflexivity; simpl; lia.
Defined.

(** C9 (as stated) fails: under the sender's own policy an operation that
    always answers 400 is invoked once, not [maxRetries + 1 = 3] times. *)
Lemma execute_refused_failure_not_retried :
  alwaysFails Sample.policy Sample.badRequest /\
  invocations
    (snd (execute (fun _ _ => true) Sample.badRequest Sample.policy)) = 1 /\
  maxRetries Sample.policy + 1 = 3.
Proof. split; [intros k; reflexivity|split; reflexivity]. Qed.

(** [execute_attempts] at an operation that always answers 503: three
    attempts under the sender's policy. *)
Lemma execute_attempts_witness :
  let outcome :=
    execute (fun _ _ => true) Sample.unavailable Sample.policy in
  invocations (snd outcome) = maxRetries Sample.policy + 1 /\
  snd outcome = retried (retryDelayMs Sample.policy) 0
                  (maxRetries Sample.policy) /\
  last (snd outcome) (Wait 0) = Attempt (maxRetries Sample.policy) /\
  fst outcome = propagate (underDeadline (Policy.timeoutMs Sample.policy)
                             (Sample.unavailable (maxRetries Sample.policy))).
Proof.
  apply (@execute_attempts (fun _ _ => true) Sample.policy
           Sample.unavailable).
  - intros k. reflexivity.
  - intros k. reflexivity.
Defined.

(** The breaker of the sample client is OPEN after one failed query. *)
Example tripped_is_open :
  Breaker.state (fst Sample.tripped) = Breaker.OPEN /\
  snd Sample.tripped
  = [Fetch (HaiIndexerQuery (lit "http://hai:8000/api/ui/query") (lit "{}"))].
Proof. vm_compute. split; reflexivity. Qed.

(** [queryHaiIndexer_open_fallback] at the tripped client, 10 ms after the
    breaker opened. *)
Lemma queryHaiIndexer_open_fallback_witness :
  queryHaiIndexer Sample.clientEnv Sample.down (fun n => 0) (lit "{}") 10
    Sample.tripped
  = (Ok {| answer := VString busyText |}, Sample.tripped).
Proof.
  apply queryHaiIndexer_open_fallback.
  - unfold Sample.tripped. apply reach_query. apply reach_loaded.
  - reflexivity.
Defined.

End Samples.

(* ================================================================== *)
(** * Further properties of the code *)
(* ================================================================== *)

Import Shape.

(** ** Trimming *)

Lemma dropWhile_head p s c r : dropWhile p s = c :: r -> p c = false.
Proof.
  induction s as [|d s IH]; cbn [dropWhile]; [discriminate|].
  destruct (p d) eqn:E; auto. now intros [= <- <-].
Qed.

Lemma dropWhile_fixed p s :
  match s with [] => True | c :: _ => p c = false end -> dropWhile p s = s.
Proof. destruct s as [|c s]; cbn [dropWhile]; auto. now intros ->. Qed.

(** What [trim] gives neither starts nor ends with white space. *)
Lemma trim_ends s :
  match trim s with [] => True | c :: _ => isWhiteSpace c = false end /\
  match rev (trim s) with [] => True | c :: _ => isWhiteSpace c = false end.
Proof.
  unfold trim. set (d := dropWhile isWhiteSpace s).
  destruct (dropWhile_split isWhiteSpace (rev d)) as (w & Hd & _).
  set (e := dropWhile isWhiteSpace (rev d)) in *.
  split.
  - destruct (rev e) as [|c t] eqn:Ht; auto.
    assert (d = rev e ++ rev w) as Hd'
      by (rewrite <- rev_app_distr, <- Hd; now rewrite rev_involutive).
    rewrite Ht in Hd'. apply (@dropWhile_head isWhiteSpace s c (t ++ rev w)).
    exact Hd'.
  - rewrite rev_involutive. destruct e as [|c t] eqn:He; auto.
    apply (@dropWhile_head isWhiteSpace (rev d) c t). exact He.
Qed.

Lemma trim_fixed s :
  match s with [] => True | c :: _ => isWhiteSpace c = false end ->
  match rev s with [] => True | c :: _ => isWhiteSpace c = false end ->
  trim s = s.
Proof.
  intros Hhead Hlast. unfold trim.
  rewrite (dropWhile_fixed _ _ Hhead), (dropWhile_fixed _ _ Hlast).
  apply rev_involutive.
Qed.

Lemma trim_idempotent s : trim (trim s) = trim s.
Proof. destruct (trim_ends s). now apply trim_fixed. Qed.

(** ** The loop of the splitter *)

Lemma splitLoop_count message maxLength fuel :
  0 < maxLength ->
  forall remaining chunks out,
    splitLoop fuel message maxLength remaining chunks = Some out ->
    length chunks <= length out <= length chunks + length remaining /\
    (remaining <> [] -> length chunks < length out).
Proof.
  intros Hpos. induction fuel as [|fuel IH]; intros remaining chunks out;
    [discriminate|].
  cbn [splitLoop].
  destruct (Nat.eqb_spec (length remaining) 0) as [Hempty|Hne].
  { intros [= <-]. split; [lia|]. destruct remaining; [congruence|].
    discriminate. }
  destruct (Nat.leb_spec (length remaining) maxLength) as [Hfits|Hlong].
  { intros [= <-]. rewrite length_app. cbn [length]. lia. }
  pose proof (splitIndex_bounds remaining Hpos Hlong) as Hsi.
  pose proof (trim_length
    (substringFrom (splitIndex remaining maxLength) remaining)) as Ht.
  unfold substringFrom in *. rewrite length_skipn in Ht.
  intros Hrun. apply IH in Hrun. destruct Hrun as [Hrun _].
  destruct (moreThanOne _); rewrite length_app in Hrun; cbn [length] in Hrun;
    lia.
Qed.

(** X1: for a positive integer [maxLength] the loop of [splitMessage] ends,
    for every argument: a value that is not a non-empty string gives no chunk,
    a non-empty string gives at least one chunk and at most as many as it
    has code units. *)
Theorem splitMessage_terminates message maxLength :
  0 < maxLength ->
  exists chunks,
    splitMessage message maxLength = Some chunks /\
    match message with
    | VString (c :: text) => 1 <= length chunks <= length (c :: text)
    | _ => chunks = []
    end.
Proof.
  intros Hpos. unfold splitMessage.
  destruct message as [| |b|z|[|c text]|];
    try (eexists; split; [reflexivity|reflexivity]).
  - cbn [truthy isString negb orb]. rewrite orb_true_r. eauto.
  - cbn [truthy isString negb orb]. rewrite orb_true_r. eauto.
  - cbn [truthy isString length Nat.eqb negb orb].
    destruct (Nat.leb_spec (S (length text)) maxLength).
    + eexists. split; [reflexivity|]. cbn [length]. lia.
    + destruct (@splitLoop_returns (S (S (length text))) (c :: text)
                  maxLength (c :: text) []) as [out Hout]; auto.
      exists out. split; [exact Hout|].
      apply splitLoop_count in Hout; auto. cbn [length] in *.
      destruct Hout as [H1 H2]. specialize (H2 ltac:(discriminate)). lia.
Qed.

(** [splitMessage_terminates] at the text [ab. cd. efghijk] cut at 10. *)
Lemma splitMessage_terminates_witness :
  exists chunks,
    splitMessage (VString (lit "ab. cd. efghijk")) 10 = Some chunks /\
    1 <= length chunks <= 15.
Proof.
  apply (@splitMessage_terminates (VString (lit "ab. cd. efghijk")) 10).
  lia.
Defined.

Lemma splitIndex_zero remaining : splitIndex remaining 0 = 0.
Proof. reflexivity. Qed.

Lemma splitLoop_zero_never_ends message fuel :
  forall remaining chunks,
    remaining <> [] -> trim remaining = remaining ->
    splitLoop fuel message 0 remaining chunks = None.
Proof.
  induction fuel as [|fuel IH]; intros remaining chunks Hne Htrim; auto.
  cbn [splitLoop]. rewrite splitIndex_zero.
  destruct remaining as [|c r]; [congruence|].
  cbn [length Nat.eqb Nat.leb substringFrom skipn].
  rewrite Htrim. apply IH; auto.
Qed.

(** X2: with [maxLength] 0 the loop never ends on a text that is not all
    white space: no number of iterations makes [splitMessage] return. *)
Theorem splitMessage_zero_never_returns text :
  trim text <> [] ->
  splitMessage (VString text) 0 = None /\
  forall fuel, splitLoop fuel text 0 text [] = None.
Proof.
  intros Htrim.
  assert (forall fuel, splitLoop fuel text 0 text [] = None) as Hloop.
  { intros [|fuel]; auto. cbn [splitLoop]. rewrite splitIndex_zero.
    destruct text as [|c r]; [now destruct Htrim|].
    cbn [length Nat.eqb Nat.leb substringFrom skipn].
    apply splitLoop_zero_never_ends; auto. apply trim_idempotent. }
  split; auto. unfold splitMessage.
  destruct text as [|c r]; [now destruct Htrim|].
  cbn [truthy isString length Nat.eqb Nat.leb negb orb]. apply Hloop.
Qed.

(** [splitMessage_zero_never_returns] at the text [a]. *)
Lemma splitMessage_zero_never_returns_witness :
  splitMessage (VString (lit "a")) 0 = None /\
  forall fuel, splitLoop fuel (lit "a") 0 (lit "a") [] = None.
Proof.
  apply splitMessage_zero_never_returns. discriminate.
Defined.

Lemma ceilDiv_long len maxLength :
  0 < maxLength -> maxLength < len ->
  exists total, ceilDiv len maxLength = Some total /\ 2 <= total.
Proof.
  intros Hpos Hlong. unfold ceilDiv.
  destruct (Nat.eqb_spec maxLength 0); [lia|].
  eexists. split; [reflexivity|].
  apply Nat.div_le_lower_bound; lia.
Qed.

Section ChunkStructure.
Import Bodies.

Lemma splitLoop_structure message maxLength total fuel :
  0 < maxLength ->
  ceilDiv (length message) maxLength = Some total -> 2 <= total ->
  forall remaining chunks out,
    maxLength < length remaining \/ trim remaining = remaining ->
    splitLoop fuel message maxLength remaining chunks = Some out ->
    forall k chunk,
      length chunks <= k -> nth_error out k = Some chunk ->
      chunkShape maxLength total out k chunk.
Proof.
  intros Hpos Htotal Hmany.
  induction fuel as [|fuel IH]; intros remaining chunks out Hrem;
    [discriminate|].
  cbn [splitLoop]. rewrite Htotal. cbn [moreThanOne].
  replace (1 <? total) with true by (symmetry; apply Nat.ltb_lt; lia).
  destruct (Nat.eqb_spec (length remaining) 0) as [Hempty|Hne].
  { intros [= <-] k chunk Hk Hnth.
    apply (proj2 (nth_error_None chunks k)) in Hk.
    discriminate (eq_trans (eq_sym Hk) Hnth). }
  destruct (Nat.leb_spec (length remaining) maxLength) as [Hfits|Hlong].
  { intros [= <-] k chunk Hk Hnth. right.
    assert (k < length (chunks ++ [remaining])) as Hlt
      by (apply (proj1 (nth_error_Some (chunks ++ [remaining]) k));
          intros Hn; discriminate (eq_trans (eq_sym Hn) Hnth)).
    rewrite length_app in *. cbn [length] in *.
    assert (k = length chunks) as -> by lia.
    rewrite nth_error_app2, Nat.sub_diag in Hnth by lia.
    injection Hnth as <-.
    destruct Hrem as [|Htrim]; [lia|].
    repeat split; auto; [lia|]. destruct remaining; [|discriminate].
    now destruct Hne. }
  pose proof (splitIndex_bounds remaining Hpos Hlong) as Hsi.
  set (si := splitIndex remaining maxLength) in *.
  set (body := trim (substring 0 si remaining)).
  intros Hrun k chunk Hk Hnth.
  destruct (Nat.eq_dec k (length chunks)) as [->|Hlater].
  - left. exists body.
    destruct (splitLoop_bodies _ _ Hpos _ _ Hrun) as (rendered & _ & -> & _).
    rewrite <- app_assoc in Hnth.
    rewrite nth_error_app2, Nat.sub_diag in Hnth by lia.
    injection Hnth as <-. repeat split.
    + apply trim_idempotent.
    + unfold body. etransitivity; [apply trim_length|].
      rewrite substring_prefix, length_firstn. lia.
  - apply (IH _ _ _ (or_intror (trim_idempotent _)) Hrun); auto.
    rewrite length_app. cbn [length]. lia.
Qed.

(** X3: the chunks of [splitMessage] for a text longer than [maxLength]:
    the chunk at index [k] carries the indicator [[k+1/total]], where
    [total] is [Math.ceil(text.length / maxLength)] (at least 2, whatever
    the number of chunks turns out to be) in front of a body that is trimmed
    and at most [maxLength] long; only the last chunk can be without
    indicator, and then it is non-empty, trimmed and at most [maxLength]
    long. *)
Theorem splitMessage_chunk_structure text maxLength chunks :
  0 < maxLength -> maxLength < length text ->
  splitMessage (VString text) maxLength = Some chunks ->
  exists total,
    ceilDiv (length text) maxLength = Some total /\ 2 <= total /\
    forall k chunk,
      nth_error chunks k = Some chunk ->
      chunkShape maxLength total chunks k chunk.
Proof.
  intros Hpos Hlong Hsplit.
  destruct (ceilDiv_long Hpos Hlong) as (total & Htotal & Hmany).
  exists total. repeat split; auto.
  intros k chunk Hnth. unfold splitMessage in Hsplit.
  destruct text as [|c text]; [simpl in Hlong; lia|].
  cbn [truthy isString length Nat.eqb negb orb] in Hsplit.
  replace (S (length text) <=? maxLength) with false in Hsplit
    by (symmetry; apply Nat.leb_gt; exact Hlong).
  eapply splitLoop_structure; eauto. cbn [length]. lia.
Qed.

End ChunkStructure.

(** [splitMessage_chunk_structure] at the text [ab. cd. efghijk] cut at
    10. *)
Lemma splitMessage_chunk_structure_witness :
  exists total,
    ceilDiv 15 10 = Some total /\ 2 <= total /\
    forall k chunk,
      nth_error
        [withIndicator 1 (Some 2) (lit "ab.");
         withIndicator 2 (Some 2) (lit "cd."); lit "efghijk"] k
      = Some chunk ->
      chunkShape 10 total
        [withIndicator 1 (Some 2) (lit "ab.");
         withIndicator 2 (Some 2) (lit "cd."); lit "efghijk"] k chunk.
Proof.
  apply (@splitMessage_chunk_structure (lit "ab. cd. efghijk") 10).
  - lia.
  - vm_compute. lia.
  - reflexivity.
Defined.

(** ** Headers *)

(** [splitMessageWithIndicators_headers] at 5000 letters, second chunk. *)
Lemma splitMessageWithIndicators_headers_witness :
  exists body,
    withPart 2 2 (repeat 97%N 904) = withPart (1 + 1) 2 body.
Proof.
  apply (@splitMessageWithIndicators_headers
           (VString (repeat 97%N 5000))
           [withPart 1 2 (repeat 97%N 4096); withPart 2 2 (repeat 97%N 904)]
           1 (withPart 2 2 (repeat 97%N 904))).
  - vm_compute. reflexivity.
  - cbn [length]. lia.
  - reflexivity.
Defined.

Lemma removeAtStart_part number total body :
  removeAtStart indicatorPattern (withPart number total body)
  = withPart number total body.
Proof. reflexivity. Qed.

(** X6: the pattern of line 96 removes exactly the indicator that
    [splitMessage] renders, for all numbers and bodies, and leaves a
    [[Part i/N]] header alone; so giving headers to chunks that already
    have them puts a second header in front of the first. *)
Theorem addIndicators_twice total total' chunks k chunk :
  nth_error chunks k = Some chunk ->
  (forall number count body,
      chunk = withIndicator number (Some count) body ->
      nth_error (addIndicators total 0 chunks) k
      = Some (withPart (k + 1) total body)) /\
  nth_error (addIndicators total' 0 (addIndicators total 0 chunks)) k
  = Some (withPart (k + 1) total'
            (withPart (k + 1) total (removeAtStart indicatorPattern chunk))).
Proof.
  intros Hk. split.
  - intros number count body ->.
    rewrite addIndicators_nth, Hk. cbn [option_map].
    now rewrite removeAtStart_indicator.
  - rewrite !addIndicators_nth, Hk. cbn [option_map].
    now rewrite removeAtStart_part.
Qed.

(** [addIndicators_twice] at the two chunks of a split text. *)
Lemma addIndicators_twice_witness :
  nth_error
    (addIndicators 2 0
       (addIndicators 2 0 [withIndicator 1 (Some 2) (lit "ab."); lit "cd"])) 0
  = Some (withPart (0 + 1) 2
            (withPart (0 + 1) 2
               (removeAtStart indicatorPattern
                  (withIndicator 1 (Some 2) (lit "ab."))))).
Proof.
  apply (@addIndicators_twice 2 2
           [withIndicator 1 (Some 2) (lit "ab."); lit "cd"] 0
           (withIndicator 1 (Some 2) (lit "ab."))).
  reflexivity.
Defined.

(** ** Text without white space *)

Lemma unbroken_nth s i d :
  unbroken s -> nth_error s i = Some d -> isWhiteSpace d = false.
Proof.
  intros Hs Hd. apply nth_error_In in Hd.
  unfold unbroken in Hs. rewrite Forall_forall in Hs. now apply Hs.
Qed.

Lemma continues_white c d :
  Boundary.continues c d = true -> isWhiteSpace d = true.
Proof.
  unfold Boundary.continues. destruct (isSentenceEnd c); auto.
  unfold isChar. intros H. apply N.eqb_eq in H. now subst.
Qed.

Lemma splitIndex_unbroken remaining maxLength :
  maxLength < length remaining ->
  unbroken (firstn maxLength remaining) ->
  splitIndex remaining maxLength = maxLength.
Proof.
  intros Hlong Hun. unfold splitIndex. rewrite substring_prefix.
  unfold substringFrom.
  set (chunk := firstn maxLength remaining) in *.
  destruct (exec sentenceEndPattern _) as [[i n]|] eqn:E.
  - exfalso. apply exec_Some in E. destruct E as (Hm & _ & _).
    rewrite skipn_skipn in Hm. apply match_is_boundary in Hm.
    destruct Hm as (c & d & _ & Hd & _ & Hcont).
    apply continues_white in Hcont.
    rewrite (@unbroken_nth _ _ _ Hun Hd) in Hcont. discriminate.
  - rewrite lastIndexOf_absent;
      [destruct (Z.ltb_spec (4 * Z.of_nat maxLength) (5 * -1)); lia|].
    intros i Hi. pose proof (@unbroken_nth _ _ _ Hun Hi). discriminate.
Qed.

Lemma trim_unbroken s : unbroken s -> trim s = s.
Proof.
  intros Hun. apply trim_fixed.
  - destruct s as [|c s]; auto. now inversion Hun.
  - destruct (rev s) as [|c r] eqn:E; auto.
    unfold unbroken in Hun. rewrite Forall_forall in Hun. apply Hun.
    apply in_rev. rewrite E. now left.
Qed.

Lemma withPart_body number total body :
  withPart number total body = withPart number total [] ++ body.
Proof. unfold withPart. rewrite <- !app_assoc. reflexivity. Qed.

Lemma splitLoop_step fuel message maxLength remaining chunks :
  maxLength < length remaining ->
  splitLoop (S fuel) message maxLength remaining chunks
  = let splitIndex := splitIndex remaining maxLength in
    let chunkText := trim (substring 0 splitIndex remaining) in
    let totalChunks := ceilDiv (length message) maxLength in
    splitLoop fuel message maxLength
      (trim (substringFrom splitIndex remaining))
      (if moreThanOne totalChunks
       then chunks ++ [withIndicator (length chunks + 1) totalChunks chunkText]
       else chunks ++ [chunkText]).
Proof.
  intros Hlong. cbn [splitLoop].
  destruct (Nat.eqb_spec (length remaining) 0); [lia|].
  destruct (Nat.leb_spec (length remaining) maxLength); [lia|].
  reflexivity.
Qed.

Lemma splitMessage_long text maxLength :
  maxLength < length text ->
  splitMessage (VString text) maxLength
  = splitLoop (S (length text)) text maxLength text [].
Proof.
  intros Hlong. unfold splitMessage.
  destruct text as [|c text]; [simpl in Hlong; lia|].
  cbn [truthy isString negb orb]. cbn [length Nat.eqb negb orb].
  replace (S (length text) <=? maxLength) with false
    by (symmetry; apply Nat.leb_gt; exact Hlong).
  reflexivity.
Qed.

Lemma splitMessage_unbroken_first text maxLength :
  0 < maxLength -> maxLength < length text ->
  unbroken (firstn maxLength text) ->
  exists total rest,
    splitMessage (VString text) maxLength
    = Some (withIndicator 1 (Some total) (firstn maxLength text) :: rest).
Proof.
  intros Hpos Hlong Hun.
  destruct (ceilDiv_long Hpos Hlong) as (total & Htotal & Hmany).
  rewrite splitMessage_long, splitLoop_step by assumption. cbn zeta.
  rewrite (splitIndex_unbroken _ Hlong Hun), substring_prefix,
    (trim_unbroken Hun), Htotal.
  cbn [moreThanOne].
  replace (1 <? total) with true by (symmetry; apply Nat.ltb_lt; lia).
  cbn [app length Nat.add].
  match goal with
  | |- exists _ _, splitLoop ?f ?m ?x ?r ?cs = _ =>
      destruct (@splitLoop_returns f m x r cs) as [out Hout]; auto
  end.
  { pose proof (trim_length (substringFrom maxLength text)) as Ht.
    unfold substringFrom in *. rewrite length_skipn in Ht. lia. }
  rewrite Hout.
  destruct (splitLoop_bodies _ _ Hpos _ _ Hout)
    as (rendered & _ & -> & _).
  exists total, rendered. reflexivity.
Qed.

(** X7: a message longer than 4096 whose first 4096 code units contain no
    white space is cut at exactly 4096, so its first chunk as
    [splitMessageWithIndicators] returns it, header included, is longer
    than 4096. *)
Theorem splitMessageWithIndicators_unbroken_over_limit text :
  WHATSAPP_MESSAGE_MAX_LENGTH < length text ->
  unbroken (firstn WHATSAPP_MESSAGE_MAX_LENGTH text) ->
  exists first rest body,
    splitMessageWithIndicators (VString text) = Some (first :: rest) /\
    first = body ++ firstn WHATSAPP_MESSAGE_MAX_LENGTH text /\
    WHATSAPP_MESSAGE_MAX_LENGTH < length first.
Proof.
  intros Hlong Hun.
  assert (length (firstn WHATSAPP_MESSAGE_MAX_LENGTH text)
          = WHATSAPP_MESSAGE_MAX_LENGTH) as Hlen
    by (rewrite length_firstn; lia).
  destruct (@splitMessage_unbroken_first text WHATSAPP_MESSAGE_MAX_LENGTH)
    as (total & rest & Hsplit); auto;
    [unfold WHATSAPP_MESSAGE_MAX_LENGTH; lia|].
  unfold splitMessageWithIndicators. rewrite Hsplit.
  destruct (length _ <=? 1).
  - exists (withIndicator 1 (Some total)
              (firstn WHATSAPP_MESSAGE_MAX_LENGTH text)), rest,
           (withIndicator 1 (Some total) []).
    split; [reflexivity|]. split; [apply withIndicator_body|].
    rewrite withIndicator_body, length_app, Hlen.
    unfold withIndicator. cbn [lit map list_ascii_of_string app length]. lia.
  - cbn [addIndicators]. rewrite removeAtStart_indicator.
    eexists _, _, (withPart (0 + 1) _ []).
    split; [reflexivity|]. split; [apply withPart_body|].
    rewrite withPart_body, length_app, Hlen.
    unfold withPart. cbn [lit map list_ascii_of_string app length]. lia.
Qed.

Lemma unbroken_repeat c n : isWhiteSpace c = false -> unbroken (repeat c n).
Proof.
  intros Hc. apply Forall_forall. intros x Hx.
  apply repeat_spec in Hx. now subst.
Qed.

Lemma unbroken_firstn n s : unbroken s -> unbroken (firstn n s).
Proof.
  unfold unbroken. rewrite !Forall_forall. intros H x Hx.
  apply H. rewrite <- (firstn_skipn n s). apply in_or_app. now left.
Qed.

(** [splitMessageWithIndicators_unbroken_over_limit] at 5000 letters. *)
Lemma splitMessageWithIndicators_unbroken_over_limit_witness :
  exists first rest body,
    splitMessageWithIndicators (VString (repeat 97%N 5000))
    = Some (first :: rest) /\
    first = body ++ firstn WHATSAPP_MESSAGE_MAX_LENGTH (repeat 97%N 5000) /\
    WHATSAPP_MESSAGE_MAX_LENGTH < length first.
Proof.
  apply splitMessageWithIndicators_unbroken_over_limit.
  - rewrite repeat_length. unfold WHATSAPP_MESSAGE_MAX_LENGTH. lia.
  - apply unbroken_firstn, unbroken_repeat. reflexivity.
Defined.

(** ** The sender, further *)

Section SenderFurther.
Import Sender Traces.

Variable E : env.
Variable network : Network.

Lemma sendTextMessage_too_long to s t :
  credentials E = true -> WHATSAPP_MESSAGE_MAX_LENGTH < length s ->
  sendTextMessage E network to (VString s) t
  = (Throw (MessageTooLong (length s)), t).
Proof.
  intros Hcred Hlong. unfold credentials in Hcred.
  apply andb_true_iff in Hcred. destruct Hcred as [Htok Hphone].
  unfold sendTextMessage. rewrite Htok, Hphone. cbn [negb orb].
  unfold bind at 1, lift, validateMessageLength.
  destruct s as [|c s]; [simpl in Hlong; lia|].
  cbn [truthy isString length Nat.eqb negb orb].
  replace (WHATSAPP_MESSAGE_MAX_LENGTH <? S (length s)) with true
    by (symmetry; apply Nat.ltb_lt; exact Hlong).
  reflexivity.
Qed.

(** X8: with credentials set and splitting enabled, a message longer than
    4096 whose first 4096 code units contain no white space is never
    delivered, whatever the network does: the first chunk fails the length
    guard, the call throws and no request is issued. *)
Theorem sendTextMessageWithSplitting_unbroken_undeliverable to message t :
  credentials E = true -> ENABLE_MESSAGE_SPLITTING E = true ->
  WHATSAPP_MESSAGE_MAX_LENGTH < length message ->
  unbroken (firstn WHATSAPP_MESSAGE_MAX_LENGTH message) ->
  exists n,
    WHATSAPP_MESSAGE_MAX_LENGTH < n /\
    sendTextMessageWithSplitting E network to message t
    = Some (Throw (MessageTooLong n), t).
Proof.
  intros Hcred Hsplit Hlong Hun.
  assert (length (firstn Splitter.WHATSAPP_MESSAGE_MAX_LENGTH message)
          = Splitter.WHATSAPP_MESSAGE_MAX_LENGTH) as Hlen
    by (rewrite length_firstn; unfold WHATSAPP_MESSAGE_MAX_LENGTH,
          Splitter.WHATSAPP_MESSAGE_MAX_LENGTH in *; lia).
  destruct (@splitMessage_unbroken_first message
              Splitter.WHATSAPP_MESSAGE_MAX_LENGTH)
    as (total & rest & Hchunks); auto;
    [unfold Splitter.WHATSAPP_MESSAGE_MAX_LENGTH; lia|].
  unfold sendTextMessageWithSplitting, splitMessageWithIndicators.
  rewrite Hsplit, Hchunks.
  replace (length message <=? WHATSAPP_MESSAGE_MAX_LENGTH) with false
    by (symmetry; apply Nat.leb_gt; exact Hlong).
  cbn [negb orb].
  set (prefix := firstn Splitter.WHATSAPP_MESSAGE_MAX_LENGTH message) in *.
  assert (forall head, head <> [] ->
            WHATSAPP_MESSAGE_MAX_LENGTH < length (head ++ prefix)) as Hover.
  { intros [|c head] Hne; [congruence|]. rewrite length_app, Hlen.
    cbn [length]. unfold WHATSAPP_MESSAGE_MAX_LENGTH,
      Splitter.WHATSAPP_MESSAGE_MAX_LENGTH. lia. }
  destruct rest as [|second rest].
  - cbn [length Nat.leb Nat.eqb at_index nth_error].
    rewrite withIndicator_body.
    rewrite sendTextMessage_too_long; eauto.
    + eexists. split; [|reflexivity]. apply Hover. discriminate.
    + apply Hover. discriminate.
  - cbn [length Nat.leb addIndicators Nat.eqb sendChunksFrom].
    rewrite removeAtStart_indicator, withPart_body.
    unfold bind at 1. unfold at_index. cbn [nth_error].
    rewrite sendTextMessage_too_long; eauto.
    + eexists. split; [|reflexivity]. apply Hover. discriminate.
    + apply Hover. discriminate.
Qed.

(** X9: [validateMessageLength] over all values: it returns for exactly the
    non-empty strings of at most 4096 code units, throws the length error
    (with the length) for exactly the longer strings, and the
    not-a-non-empty-string error for everything else. *)
Theorem validateMessageLength_outcomes message :
  (validateMessageLength message = Ok tt <->
   exists s, message = VString s /\
             1 <= length s <= WHATSAPP_MESSAGE_MAX_LENGTH)
  /\
  (forall n, validateMessageLength message = Throw (MessageTooLong n) <->
             exists s, message = VString s /\ n = length s /\
                       WHATSAPP_MESSAGE_MAX_LENGTH < n)
  /\
  (validateMessageLength message = Throw MessageNotNonEmptyString <->
   isString message = false \/ message = VString []).
Proof.
  split; [apply validateMessageLength_Ok|].
  unfold validateMessageLength.
  destruct message as [| |b|z|s|]; cbn [truthy isString negb orb];
    try rewrite orb_true_r;
    try (split; [intros n; split; [discriminate|intros (s & [=] & _)]
                |split; auto]).
  destruct s as [|c s]; cbn [length Nat.eqb negb orb].
  - split; [intros n; split; [discriminate|]|split; auto].
    intros (s & [= <-] & -> & H). cbn in H. lia.
  - destruct (Nat.ltb_spec WHATSAPP_MESSAGE_MAX_LENGTH (S (length s))).
    + split.
      * intros n. split.
        -- intros [= <-]. exists (c :: s). auto.
        -- intros (s' & [= <-] & -> & _). reflexivity.
      * split; [discriminate|]. intros [|]; discriminate.
    + split.
      * intros n. split; [discriminate|].
        intros (s' & [= <-] & -> & H'). cbn [length] in H'. lia.
      * split; [discriminate|]. intros [|]; discriminate.
Qed.

(** X10: one call of [sendTextMessage] issues at most one request, namely for
    its own recipient and message; it returns normally exactly when the
    credentials are set, the message passes the guard and the request comes
    back with a 2xx status and a body that parses; without credentials it
    throws the credentials error whatever the message is. *)
Theorem sendTextMessage_outcome to message t :
  exists r emitted,
    sendTextMessage E network to message t = (r, t ++ emitted) /\
    (emitted = [] \/ emitted = [Fetch (WhatsAppSend to message)]) /\
    (r = Ok tt <->
     credentials E = true /\ validateMessageLength message = Ok tt /\
     exists resp,
       network t (WhatsAppSend to message) (sendPolicy E) = Ok resp /\
       ok resp = true /\ body resp <> None) /\
    (credentials E = false ->
     r = Throw CredentialsNotConfigured /\ emitted = []).
Proof.
  destruct (sendTextMessage_cases E network to message t)
    as [(e & Hsend & Hwhy)|(r & Hsend & Hcred & Hvalid & Hok)].
  - exists (Throw e), []. rewrite app_nil_r.
    split; [exact Hsend|]. split; [now left|]. split.
    + split; [discriminate|]. intros (Hc & Hv & _).
      destruct Hwhy as [H|H]; congruence.
    + intros Hc. split; auto.
      unfold sendTextMessage in Hsend. unfold credentials in Hc.
      apply andb_false_iff in Hc.
      assert (negb (configured (WHATSAPP_TOKEN E))
              || negb (configured (PHONE_NUMBER_ID E)) = true) as Hno
        by (destruct Hc as [-> | ->]; auto using orb_true_r).
      rewrite Hno in Hsend. unfold throw in Hsend. congruence.
  - exists r, [Fetch (WhatsAppSend to message)].
    split; [exact Hsend|]. split; [now right|]. split.
    + rewrite Hok. tauto.
    + congruence.
Qed.

(** X11: with splitting disabled nothing is split or truncated: the message
    goes to [sendTextMessage] as it is, and one longer than 4096 is refused
    with the length error before any request (credentials being set). *)
Theorem sendTextMessageWithSplitting_disabled to message t :
  ENABLE_MESSAGE_SPLITTING E = false ->
  sendTextMessageWithSplitting E network to message t
  = Some (sendTextMessage E network to (VString message) t) /\
  (credentials E = true -> WHATSAPP_MESSAGE_MAX_LENGTH < length message ->
   sendTextMessageWithSplitting E network to message t
   = Some (Throw (MessageTooLong (length message)), t)).
Proof.
  intros Hoff. unfold sendTextMessageWithSplitting. rewrite Hoff.
  cbn [negb orb]. split; [reflexivity|].
  intros Hcred Hlong. now rewrite sendTextMessage_too_long.
Qed.

Lemma counts_sentWithDelay to chunks :
  fetches (sentWithDelay to chunks) = length chunks /\
  sleeps (sentWithDelay to chunks) = length chunks.
Proof.
  unfold fetches, sleeps.
  induction chunks as [|c chunks [IH1 IH2]]; [auto|].
  change (sentWithDelay to (c :: chunks))
    with ([sent to c; Sleep DELAY_BETWEEN_CHUNKS_MS]
            ++ sentWithDelay to chunks).
  rewrite !filter_app, !length_app, IH1, IH2. auto.
Qed.

Lemma counts_sentInOrder to chunks :
  fetches (sentInOrder to chunks) = length chunks /\
  sleeps (sentInOrder to chunks) = length chunks - 1.
Proof.
  unfold fetches, sleeps.
  induction chunks as [|c [|d chunks] [IH1 IH2]]; [auto|auto|].
  rewrite sentInOrder_cons, !filter_app, !length_app, IH1, IH2.
  cbn [length filter isFetch sent negb Nat.add]. lia.
Qed.

(** X12: a message longer than 4096 sent with splitting enabled: the run
    issues at most one request per chunk and never more delays than
    requests; when it returns normally it issued exactly one request per
    chunk and one delay fewer. *)
Theorem sendTextMessageWithSplitting_counts to message t :
  ENABLE_MESSAGE_SPLITTING E = true ->
  WHATSAPP_MESSAGE_MAX_LENGTH < length message ->
  exists chunks r emitted,
    splitMessageWithIndicators (VString message) = Some chunks /\
    sendTextMessageWithSplitting E network to message t
    = Some (r, t ++ emitted) /\
    fetches emitted <= length chunks /\
    sleeps emitted <= fetches emitted /\
    (r = Ok tt ->
     fetches emitted = length chunks /\
     sleeps emitted = length chunks - 1).
Proof.
  intros Hon Hlong.
  destruct (splitMessageWithIndicators_returns (VString message))
    as [chunks Hchunks].
  unfold sendTextMessageWithSplitting. rewrite Hon, Hchunks.
  replace (length message <=? WHATSAPP_MESSAGE_MAX_LENGTH) with false
    by (symmetry; apply Nat.leb_gt; exact Hlong).
  cbn [negb orb].
  destruct (sendChunksFrom_spec E network to chunks [] t)
    as (r & emitted & Hrun & _ & Hshape).
  cbn [app length] in Hrun.
  assert ((if length chunks =? 1
           then Some (sendTextMessage E network to (at_index chunks 0) t)
           else Some (sendChunksFrom E network to chunks 0 (length chunks) t))
          = Some (r, t ++ emitted)) as ->.
  { destruct chunks as [|c [|d chunks]]; try (now rewrite <- Hrun).
    cbn [length Nat.eqb]. rewrite <- Hrun.
    cbn [length sendChunksFrom]. unfold bind, at_index. cbn.
    destruct (sendTextMessage E network to (VString c) t) as [[[]|e] t1];
      reflexivity. }
  exists chunks, r, emitted. split; [reflexivity|]. split; [reflexivity|].
  destruct r as [[]|e].
  - subst emitted. destruct (counts_sentInOrder to chunks) as [-> ->].
    repeat split; lia.
  - destruct Hshape as (k & c & Hk & _ & Hem).
    assert (k < length chunks) as Hlt
      by (apply nth_error_Some; intros Hn;
          discriminate (eq_trans (eq_sym Hn) Hk)).
    destruct (counts_sentWithDelay to (firstn k chunks)) as [Hf Hs].
    rewrite length_firstn in Hf, Hs.
    split; [|split; [|discriminate]].
    + destruct Hem as [-> | ->].
      * rewrite Hf. lia.
      * unfold fetches in *. rewrite filter_app, length_app, Hf. cbn. lia.
    + destruct Hem as [-> | ->].
      * rewrite Hf, Hs. lia.
      * unfold fetches, sleeps in *.
        rewrite !filter_app, !length_app, Hf, Hs. cbn. lia.
Qed.

End SenderFurther.

(** [sendTextMessageWithSplitting_unbroken_undeliverable] at 5000
    letters. *)
Lemma sendTextMessageWithSplitting_unbroken_undeliverable_witness :
  exists n,
    Sender.WHATSAPP_MESSAGE_MAX_LENGTH < n /\
    Sender.sendTextMessageWithSplitting Sample.senderEnv Sample.accepts
      Sample.recipient (repeat 97%N 5000) []
    = Some (Throw (MessageTooLong n), []).
Proof.
  apply sendTextMessageWithSplitting_unbroken_undeliverable.
  - reflexivity.
  - reflexivity.
  - rewrite repeat_length. unfold Sender.WHATSAPP_MESSAGE_MAX_LENGTH. lia.
  - apply unbroken_firstn, unbroken_repeat. reflexivity.
Defined.

(** [sendTextMessageWithSplitting_disabled] at 5000 letters. *)
Lemma sendTextMessageWithSplitting_disabled_witness :
  Sender.sendTextMessageWithSplitting Fixtures.noSplitting Sample.accepts
    Sample.recipient (repeat 97%N 5000) []
  = Some (Throw (MessageTooLong (length (repeat 97%N 5000))), []).
Proof.
  apply (@sendTextMessageWithSplitting_disabled Fixtures.noSplitting
           Sample.accepts Sample.recipient (repeat 97%N 5000) []).
  - reflexivity.
  - reflexivity.
  - rewrite repeat_length. unfold Sender.WHATSAPP_MESSAGE_MAX_LENGTH. lia.
Defined.

(** [sendTextMessageWithSplitting_counts] at the two-sentence message. *)
Lemma sendTextMessageWithSplitting_counts_witness :
  exists chunks r emitted,
    splitMessageWithIndicators (VString Sample.twoSentences) = Some chunks /\
    Sender.sendTextMessageWithSplitting Sample.senderEnv Sample.accepts
      Sample.recipient Sample.twoSentences [] = Some (r, [] ++ emitted) /\
    fetches emitted <= length chunks /\
    sleeps emitted <= fetches emitted /\
    (r = Ok tt ->
     fetches emitted = length chunks /\
     sleeps emitted = length chunks - 1).
Proof.
  apply sendTextMessageWithSplitting_counts.
  - reflexivity.
  - vm_compute. lia.
Defined.

(** ** The protected operation of the HaiIndexer client *)

Section OperationProperties.
Import HaiIndexer.

Variable E : env.
Variable network : Network.

Lemma startsWith_refl p : startsWith p p = true.
Proof.
  induction p as [|c p IH]; cbn [startsWith]; auto.
  now rewrite N.eqb_refl, IH.
Qed.

Lemma includes_suffix p s : includes p (s ++ p) = true.
Proof.
  induction s as [|c s IH].
  - destruct p; cbn [app includes]; [reflexivity|].
    now rewrite startsWith_refl.
  - cbn [app includes]. rewrite IH. apply orb_true_r.
Qed.

(** X13: the protected operation issues exactly one request, whatever
    happens afterwards, and the URL it requests always contains
    [/api/ui/query]: the configured URL itself when it already contains
    the path, and otherwise the configured URL without one final slash
    followed by the path. *)
Theorem operation_request url normalizedQuery t :
  exists apiUrl,
    snd (operation E network url normalizedQuery t)
    = t ++ [Fetch (HaiIndexerQuery apiUrl normalizedQuery)] /\
    includes (lit "/api/ui/query") apiUrl = true /\
    (includes (lit "/api/ui/query") url = true -> apiUrl = url) /\
    (includes (lit "/api/ui/query") url = false ->
     apiUrl = dropFinalSlash url ++ lit "/api/ui/query").
Proof.
  unfold operation.
  set (apiUrl := if negb (includes (lit "/api/ui/query") url)
                 then dropFinalSlash url ++ lit "/api/ui/query" else url).
  exists apiUrl. split; [|split; [|split]].
  - unfold bind, fetchWithRetry.
    destruct (network t _ _) as [resp|e]; [|reflexivity].
    destruct (negb (ok resp)); [reflexivity|].
    destruct (body resp) as [[|s|a r stringified]|]; try reflexivity.
    destruct (truthy a); [reflexivity|]. destruct (truthy r); reflexivity.
  - unfold apiUrl. destruct (includes _ url) eqn:H; cbn [negb]; auto.
    apply includes_suffix.
  - unfold apiUrl. now intros ->.
  - unfold apiUrl. now intros ->.
Qed.

(** X14: the protected operation returns normally exactly when the request
    comes back with a 2xx status and a body that parses to something other
    than [null]; a non-2xx status, an unparsable body and a [null] body each
    make it throw (the API error with the status, a syntax error, a type
    error). When it returns, the answer is [data.answer] if that is truthy,
    else [data.response] if that is truthy, so it is truthy or a string. *)
Theorem operation_outcome url normalizedQuery t :
  let request :=
    HaiIndexerQuery
      (if negb (includes (lit "/api/ui/query") url)
       then dropFinalSlash url ++ lit "/api/ui/query" else url)
      normalizedQuery in
  let result := fst (operation E network url normalizedQuery t) in
  ((exists a, result = Ok a) <->
   exists resp data,
     network t request (queryPolicy E) = Ok resp /\ ok resp = true /\
     body resp = Some data /\ data <> JsonNull)
  /\
  (forall resp, network t request (queryPolicy E) = Ok resp ->
     (ok resp = false -> result = Throw (HaiIndexerApiError (status resp))) /\
     (ok resp = true -> body resp = None -> result = Throw SyntaxError) /\
     (ok resp = true -> body resp = Some JsonNull ->
      result = Throw TypeError) /\
     (forall a r stringified,
         ok resp = true ->
         body resp = Some (JsonOther a r stringified) ->
         (truthy a = true -> result = Ok {| answer := a |}) /\
         (truthy a = false -> truthy r = true ->
          result = Ok {| answer := r |})))
  /\
  (forall a, result = Ok a ->
     truthy (answer a) = true \/ exists s, answer a = VString s).
Proof.
  intros request result. subst request result.
  unfold operation, bind, fetchWithRetry, throw, ret. cbv zeta.
  destruct (network t _ (queryPolicy E)) as [resp|e]; cbn [fst].
  2:{ split; [|split].
      - split; [intros [a [=]]|intros (resp & data & [=] & _)].
      - intros resp [=].
      - intros a [=]. }
  destruct (ok resp) eqn:Hok; cbn [negb fst].
  2:{ split; [|split].
      - split; [intros [a [=]]|].
        intros (resp' & data & [= <-] & Hok' & _). congruence.
      - intros resp' [= <-]. repeat split; try reflexivity; congruence.
      - intros a [=]. }
  destruct (body resp) as [[|s|a r stringified]|] eqn:Hbody; cbn [fst].
  - split; [|split].
    + split; [intros [a [=]]|].
      intros (resp' & data & [= <-] & _ & Hb & Hnn). congruence.
    + intros resp' [= <-]. repeat split; try reflexivity; congruence.
    + intros a [=].
  - split; [|split].
    + split; [|eauto]. intros _. exists resp, (JsonString s).
      repeat split; auto. discriminate.
    + intros resp' [= <-]. repeat split; try congruence.
    + intros a [= <-]. right. eexists. reflexivity.
  - split; [|split].
    + split.
      * intros _. exists resp, (JsonOther a r stringified).
        repeat split; auto. discriminate.
      * intros _. destruct (truthy a); [eexists; reflexivity|].
        destruct (truthy r); eexists; reflexivity.
    + intros resp' [= <-].
      split; [congruence|]. split; [congruence|]. split; [congruence|].
      intros a' r' s' _ Hb. rewrite Hbody in Hb. injection Hb as <- <- <-.
      split.
      * intros ->. reflexivity.
      * intros -> ->. reflexivity.
    + intros x. destruct (truthy a) eqn:Ha.
      * intros [= <-]. now left.
      * destruct (truthy r) eqn:Hr; intros [= <-];
          [now left|right; eexists; reflexivity].
  - split; [|split].
    + split; [intros [a [=]]|].
      intros (resp' & data & [= <-] & _ & Hb & _). congruence.
    + intros resp' [= <-]. repeat split; try reflexivity; congruence.
    + intros a [=].
Qed.

End OperationProperties.

(** ** The Redis client service *)

Section RedisProperties.
Import RedisClient RedisUse.

Variable construct : list revent -> str -> option client.
Variable status : list revent -> client -> string.
Variable quit : list revent -> client -> bool.

(** The retry delay grows by 50 ms per attempt and is capped at
    2000 ms from the 40th attempt on (linear, not exponential). *)
Theorem retryStrategy_bounds times :
  retryStrategy times <= 2000 /\
  (times <= 40 -> retryStrategy times = 50 * times) /\
  (40 <= times -> retryStrategy times = 2000) /\
  (forall later, times <= later ->
                 retryStrategy times <= retryStrategy later).
Proof. unfold retryStrategy. repeat split; intros; lia. Qed.

(** While a client is cached, a call of [getRedisClient] or
    [isRedisAvailable] leaves the module as it is. *)
Lemma step_keeps_cached call s c :
  redisClient s = Some c -> notClosing call ->
  step construct status quit call s = s.
Proof.
  intros Hs Hcall. destruct call as [u|u|]; cbn [step notClosing] in *.
  - unfold getRedisClient. now rewrite Hs.
  - unfold isRedisAvailable, getRedisClient. now rewrite Hs.
  - contradiction.
Qed.

(** X15: once [getRedisClient] has returned a client, that client stays
    cached until [closeRedisClient] is called: whatever calls of
    [getRedisClient] and [isRedisAvailable] follow, and whatever [REDIS_URL]
    is by then, the module stays as the first call left it (nothing more is
    constructed), [getRedisClient] returns the same client and
    [isRedisAvailable] reports that client's status. *)
Theorem getRedisClient_cached url calls url' s c s' :
  getRedisClient construct url s = (Some c, s') ->
  Forall notClosing calls ->
  let later :=
    fold_left (fun s call => step construct status quit call s) calls s' in
  redisClient s' = Some c /\
  later = s' /\
  getRedisClient construct url' later = (Some c, s') /\
  isRedisAvailable construct status url' later
  = (String.eqb (status (history s') c) "ready", s').
Proof.
  intros Hget Hcalls later.
  assert (redisClient s' = Some c) as Hs'.
  { unfold getRedisClient in Hget.
    destruct (redisClient s) as [c0|] eqn:Hs.
    - injection Hget as <- <-. exact Hs.
    - destruct (negb (configured url)); [discriminate|].
      destruct (construct _ _) as [c0|]; [|discriminate].
      injection Hget as <- <-. reflexivity. }
  assert (later = s') as ->.
  { subst later. induction Hcalls as [|call calls Hcall _ IH]; auto.
    cbn [fold_left]. now rewrite (@step_keeps_cached call s' c Hs' Hcall). }
  repeat split; auto.
  - unfold getRedisClient. now rewrite Hs'.
  - unfold isRedisAvailable, getRedisClient. now rewrite Hs'.
Qed.

Lemma live_app h1 h2 acc : live (h1 ++ h2) acc = live h2 (live h1 acc).
Proof.
  revert acc. induction h1 as [|e h1 IH]; intros acc; auto.
  destruct e; cbn [app live]; apply IH.
Qed.

Lemma step_keeps_live call s :
  live (history s) [] = cached s ->
  live (history (step construct status quit call s)) []
  = cached (step construct status quit call s).
Proof.
  intros Hinv.
  assert (forall u,
             live (history (snd (getRedisClient construct u s))) []
             = cached (snd (getRedisClient construct u s))) as Hget.
  { intros u. unfold getRedisClient, cached in *.
    destruct (redisClient s) as [c|] eqn:Hs; cbn [snd]; [now rewrite Hs|].
    destruct (negb (configured u)); cbn [snd]; [now rewrite Hs|].
    destruct (construct _ _) as [c|]; cbn [snd redisClient history];
      rewrite live_app, Hinv; reflexivity. }
  destruct call as [u|u|]; cbn [step].
  - apply Hget.
  - unfold isRedisAvailable.
    destruct (getRedisClient construct u s) as [[c|] s1] eqn:Hg;
      cbn [snd]; specialize (Hget u); now rewrite Hg in Hget.
  - unfold closeRedisClient, cached in *.
    destruct (redisClient s) as [c|] eqn:Hs; cbn [snd]; [|now rewrite Hs].
    destruct (quit _ _); cbn [snd redisClient history];
      rewrite live_app, Hinv; cbn [live remove]; [|reflexivity].
    destruct (Nat.eq_dec c c); [reflexivity|congruence].
Qed.

(** X16: after any sequence of calls on the freshly loaded module, the
    clients that were constructed and not closed since are exactly the
    cached one, if any: no second client is constructed while one is
    cached, and none is dropped without being closed. *)
Theorem redis_single_live_client calls :
  live (history (after construct status quit calls)) []
  = cached (after construct status quit calls).
Proof.
  unfold after.
  assert (forall s, live (history s) [] = cached s ->
            live (history (fold_left
                             (fun s c => step construct status quit c s)
                             calls s)) []
            = cached (fold_left
                        (fun s c => step construct status quit c s)
                        calls s)) as H.
  { induction calls as [|c calls IH]; intros s Hs; auto.
    cbn [fold_left]. apply IH. now apply step_keeps_live. }
  apply H. reflexivity.
Qed.

(** X17: while [REDIS_URL] is unset or empty the module stays as loaded,
    whatever is called: nothing is constructed, [getRedisClient] returns
    null and [isRedisAvailable] returns false. *)
Theorem redis_without_url calls url :
  Forall withoutUrl calls -> configured url = false ->
  after construct status quit calls = loaded /\
  getRedisClient construct url (after construct status quit calls)
  = (None, loaded) /\
  isRedisAvailable construct status url (after construct status quit calls)
  = (false, loaded).
Proof.
  intros Hcalls Hurl.
  assert (after construct status quit calls = loaded) as ->.
  { unfold after.
    assert (forall s, s = loaded ->
              fold_left (fun s c => step construct status quit c s) calls s
              = loaded) as H; [|now apply H].
    induction Hcalls as [|c calls Hc _ IH]; intros s ->; auto.
    cbn [fold_left]. apply IH.
    destruct c as [u|u|]; cbn [step withoutUrl] in *.
    - unfold getRedisClient. cbn. now rewrite Hc.
    - unfold isRedisAvailable, getRedisClient. cbn. now rewrite Hc.
    - reflexivity. }
  split; [reflexivity|].
  unfold isRedisAvailable, getRedisClient. cbn. now rewrite Hurl.
Qed.

End RedisProperties.

(** [getRedisClient_cached] at a first call with a URL, then three calls
    without one. *)
Lemma getRedisClient_cached_witness :
  let later :=
    fold_left
      (fun s call =>
         RedisClient.step Fixtures.construct7 Fixtures.ready Fixtures.quits
           call s)
      [RedisClient.IsRedisAvailable None;
       RedisClient.GetRedisClient (Some (lit "redis://other"));
       RedisClient.GetRedisClient None]
      Fixtures.holding7 in
  RedisClient.redisClient Fixtures.holding7 = Some 7 /\
  later = Fixtures.holding7 /\
  RedisClient.getRedisClient Fixtures.construct7 None later
  = (Some 7, Fixtures.holding7) /\
  RedisClient.isRedisAvailable Fixtures.construct7 Fixtures.ready None later
  = (String.eqb
       (Fixtures.ready (RedisClient.history Fixtures.holding7) 7) "ready",
     Fixtures.holding7).
Proof.
  apply (@getRedisClient_cached Fixtures.construct7 Fixtures.ready
           Fixtures.quits (Some (lit "redis://cache"))
           [RedisClient.IsRedisAvailable None;
            RedisClient.GetRedisClient (Some (lit "redis://other"));
            RedisClient.GetRedisClient None]
           None RedisClient.loaded).
  - reflexivity.
  - repeat constructor.
Defined.

(** [redis_without_url] at three calls without a URL. *)
Lemma redis_without_url_witness :
  RedisClient.after Fixtures.construct7 Fixtures.ready Fixtures.quits
    [RedisClient.GetRedisClient None;
     RedisClient.IsRedisAvailable (Some []);
     RedisClient.CloseRedisClient] = RedisClient.loaded /\
  RedisClient.getRedisClient Fixtures.construct7 None
    (RedisClient.after Fixtures.construct7 Fixtures.ready Fixtures.quits
       [RedisClient.GetRedisClient None;
        RedisClient.IsRedisAvailable (Some []);
        RedisClient.CloseRedisClient])
  = (None, RedisClient.loaded) /\
  RedisClient.isRedisAvailable Fixtures.construct7 Fixtures.ready None
    (RedisClient.after Fixtures.construct7 Fixtures.ready Fixtures.quits
       [RedisClient.GetRedisClient None;
        RedisClient.IsRedisAvailable (Some []);
        RedisClient.CloseRedisClient])
  = (false, RedisClient.loaded).
Proof.
  apply redis_without_url.
  - repeat constructor.
  - reflexivity.
Defined.

(** ** The check of the environment variables *)

Section EnvCheckProperties.
Import EnvCheck.





Lemma validateEnv_outcome_returned env :
  fst (validateEnv env) = Returned ->
  configured (env "WHATSAPP_TOKEN"%string) = true /\
  configured (env "PHONE_NUMBER_ID"%string) = true.
Proof.
  unfold validateEnv, requiredVars. cbn [filter].
  destruct (configured (env "WHATSAPP_TOKEN"%string));
    destruct (configured (env "PHONE_NUMBER_ID"%string));
    destruct (configured (env "VERIFY_TOKEN"%string));
    destruct (configured (env "HAIINDEXER_API_URL"%string));
    cbn; auto; discriminate.
Qed.

(** X19: when [validateEnv] returns, a sender that read its credentials
    from the same environment has them: a message that passes the length
    guard always reaches the network, in one request. *)
Theorem validateEnv_enables_sender env E network to message t :
  fst (validateEnv env) = Returned ->
  Sender.WHATSAPP_TOKEN E = env "WHATSAPP_TOKEN"%string ->
  Sender.PHONE_NUMBER_ID E = env "PHONE_NUMBER_ID"%string ->
  Sender.validateMessageLength message = Ok tt ->
  Sender.credentials E = true /\
  snd (Sender.sendTextMessage E network to message t)
  = t ++ [Fetch (WhatsAppSend to message)].
Proof.
  intros Hret Htok Hphone Hvalid.
  destruct (validateEnv_outcome_returned env Hret) as [H1 H2].
  assert (Sender.credentials E = true) as Hcred.
  { unfold Sender.credentials. now rewrite Htok, Hphone, H1, H2. }
  split; [exact Hcred|].
  destruct (sendTextMessage_cases E network to message t)
    as [(e & _ & [Hc|Hv])|(r & -> & _)]; [congruence|congruence|].
  reflexivity.
Qed.

End EnvCheckProperties.

(** [validateEnv_enables_sender] at an environment with the four required
    variables and the message [Hi]. *)
Lemma validateEnv_enables_sender_witness :
  Sender.credentials Sample.senderEnv = true /\
  snd (Sender.sendTextMessage Sample.senderEnv Sample.rejects
         Sample.recipient (VString (lit "Hi")) [])
  = [] ++ [Fetch (WhatsAppSend Sample.recipient (VString (lit "Hi")))].
Proof.
  apply (@validateEnv_enables_sender Fixtures.requiredOnly);
    reflexivity.
Defined.

(** [splitMessage_bodies] at the text [ab. cd. efghijk] cut at 10. *)
Lemma splitMessage_bodies_witness :
  exists bodies,
    Forall2 Bodies.rendersAs
      [withIndicator 1 (Some 2) (lit "ab.");
       withIndicator 2 (Some 2) (lit "cd."); lit "efghijk"] bodies /\
    Bodies.reassembles (lit "ab. cd. efghijk") bodies /\
    Forall (fun b => length b <= 10) bodies.
Proof.
  apply (@splitMessage_bodies (lit "ab. cd. efghijk") 10).
  - lia.
  - vm_compute. lia.
  - reflexivity.
Defined.
